(** * Soundboard: a shallow embedding of [src/js/app.js]

    The page script records audio clips, stores them base64-encoded in
    [localStorage] under the key ["sounds"], and rebuilds the board from that
    key when the page is opened.  This development embeds the script's
    functions and event handlers together with the browser built-ins they
    call, and proves the properties stated for the codec, the catalogue and
    the recording session. *)

From Stdlib Require Import NArith ZArith Lia List Strings.Ascii Strings.String Strings.Byte.
From stdpp Require Import base option list gmap.
Import ListNotations.

Set Warnings "-register-all".

(** ** JavaScript strings

    A JavaScript string is a sequence of 16-bit code units. *)

Abbreviation jsstring := (list N).

Definition code_unit (c : N) : Prop := (c < 65536)%N.
Definition wf_string (s : jsstring) : Prop := Forall code_unit s.

(** String literals of the script, given by their code units. *)
Definition str (s : String.string) : jsstring :=
  map N_of_ascii (String.list_ascii_of_string s).

(** Abrupt completions: the exceptions the script can meet. *)
Inductive Error : Type :=
| SyntaxError            (* JSON.parse on malformed text *)
| TypeError              (* property access on undefined, calling a non-function *)
| InvalidCharacterError  (* atob on text that is not base64, a refused name *)
| QuotaExceededError     (* Storage.setItem beyond the quota *)
| SecurityError          (* localStorage not accessible *)
| InvalidStateError.     (* MediaRecorder.stop on an inactive recorder *)

Inductive Completion (A : Type) : Type :=
| Normal (a : A)
| Throw (e : Error).
Arguments Normal {A} a.
Arguments Throw {A} e.

#[global] Instance Completion_ret : MRet Completion := fun A a => Normal a.
#[global] Instance Completion_bind : MBind Completion := fun A B k c =>
  match c with
  | Normal a => k a
  | Throw e => Throw e
  end.

(** [String.prototype.indexOf(search)]: position of the first occurrence,
    [-1] when there is none. *)
Fixpoint starts_with (search s : jsstring) : bool :=
  match search, s with
  | [], _ => true
  | _ :: _, [] => false
  | a :: search', b :: s' => (a =? b)%N && starts_with search' s'
  end.

Fixpoint indexOf_from (search s : jsstring) (pos : Z) : Z :=
  if starts_with search s then pos
  else match s with
       | [] => (-1)%Z
       | _ :: s' => indexOf_from search s' (pos + 1)%Z
       end.

Definition indexOf (s search : jsstring) : Z := indexOf_from search s 0%Z.

(** [String.prototype.slice(start)] with one argument: a negative start
    counts from the end, and the start is clamped to the string. *)
Definition slice (s : jsstring) (start : Z) : jsstring :=
  let len := Z.of_nat (length s) in
  let from := if (start <? 0)%Z then Z.max (len + start) 0 else Z.min start len in
  drop (Z.to_nat from) s.

(** ** Base64 (RFC 4648, section 4) *)

Module Base64.

Local Open Scope N_scope.

Definition pad : N := 61.  (* = *)

(** The alphabet: A-Z, a-z, 0-9, +, / *)
Definition alphabet (i : N) : N :=
  if i <? 26 then 65 + i
  else if i <? 52 then 97 + (i - 26)
  else if i <? 62 then 48 + (i - 52)
  else if i =? 62 then 43
  else 47.

Definition index (c : N) : option N :=
  if (65 <=? c) && (c <=? 90) then Some (c - 65)
  else if (97 <=? c) && (c <=? 122) then Some (c - 97 + 26)
  else if (48 <=? c) && (c <=? 57) then Some (c - 48 + 52)
  else if c =? 43 then Some 62
  else if c =? 47 then Some 63
  else None.

(** Three octets make four sextets; one or two trailing octets are
    completed with zero bits and the group is padded with [=]. *)
Fixpoint encode (bs : list byte) : jsstring :=
  match bs with
  | [] => []
  | [a] =>
      let a := Byte.to_N a in
      [alphabet (a / 4); alphabet ((a mod 4) * 16); pad; pad]
  | [a; b] =>
      let a := Byte.to_N a in
      let b := Byte.to_N b in
      [alphabet (a / 4); alphabet ((a mod 4) * 16 + b / 16);
       alphabet ((b mod 16) * 4); pad]
  | a :: b :: c :: rest =>
      let a := Byte.to_N a in
      let b := Byte.to_N b in
      let c := Byte.to_N c in
      alphabet (a / 4) :: alphabet ((a mod 4) * 16 + b / 16)
        :: alphabet ((b mod 16) * 4 + c / 64) :: alphabet (c mod 64)
        :: encode rest
  end.

(** The encoding without its padding, which is what the decoder works on
    once the padding is removed. *)
Fixpoint encode_unpadded (bs : list byte) : jsstring :=
  match bs with
  | [] => []
  | [a] =>
      let a := Byte.to_N a in
      [alphabet (a / 4); alphabet ((a mod 4) * 16)]
  | [a; b] =>
      let a := Byte.to_N a in
      let b := Byte.to_N b in
      [alphabet (a / 4); alphabet ((a mod 4) * 16 + b / 16);
       alphabet ((b mod 16) * 4)]
  | a :: b :: c :: rest =>
      let a := Byte.to_N a in
      let b := Byte.to_N b in
      let c := Byte.to_N c in
      alphabet (a / 4) :: alphabet ((a mod 4) * 16 + b / 16)
        :: alphabet ((b mod 16) * 4 + c / 64) :: alphabet (c mod 64)
        :: encode_unpadded rest
  end.

(** The forgiving-base64 decode of the HTML standard, which [atob] runs. *)
Definition is_ascii_whitespace (c : N) : bool :=
  (c =? 9) || (c =? 10) || (c =? 12) || (c =? 13) || (c =? 32).

Definition remove_whitespace (data : jsstring) : jsstring :=
  filter (fun c => is_ascii_whitespace c = false) data.

(** "If data ends with one or two U+003D (=) code points, then remove them". *)
Definition remove_padding (data : jsstring) : jsstring :=
  match rev data with
  | c1 :: c2 :: r =>
      if c1 =? pad then if c2 =? pad then rev r else rev (c2 :: r) else data
  | [c1] => if c1 =? pad then [] else data
  | [] => data
  end.

Fixpoint sextets (data : jsstring) : option (list N) :=
  match data with
  | [] => Some []
  | c :: data' =>
      match index c, sextets data' with
      | Some i, Some l => Some (i :: l)
      | _, _ => None
      end
  end.

(** 24 accumulated bits are three bytes; a remainder of 12 bits gives one
    byte (the last four bits are discarded) and of 18 bits two bytes (the
    last two bits are discarded). *)
Fixpoint bytes_of_sextets (l : list N) : list N :=
  match l with
  | s1 :: s2 :: s3 :: s4 :: rest =>
      let n := ((s1 * 64 + s2) * 64 + s3) * 64 + s4 in
      n / 65536 :: (n / 256) mod 256 :: n mod 256 :: bytes_of_sextets rest
  | [s1; s2; s3] =>
      let n := ((s1 * 64 + s2) * 64 + s3) / 4 in
      [n / 256; n mod 256]
  | [s1; s2] =>
      let n := (s1 * 64 + s2) / 16 in
      [n]
  | _ => []
  end.

Definition forgiving_decode (data : jsstring) : option (list N) :=
  let data := remove_whitespace data in
  let data := if (length data mod 4 =? 0)%nat then remove_padding data else data in
  if (length data mod 4 =? 1)%nat then None
  else match sextets data with
       | None => None
       | Some l => Some (bytes_of_sextets l)
       end.

End Base64.

(** [atob(data)]: the decoded bytes as a string of code units below 256, or
    an [InvalidCharacterError]. *)
Definition atob (data : jsstring) : Completion jsstring :=
  match Base64.forgiving_decode data with
  | Some bytes => Normal bytes
  | None => Throw InvalidCharacterError
  end.

(** ** Typed arrays and blobs *)

(** Conversion of a number to an element of a [Uint8Array] (modulo 256). *)
Definition to_uint8 (n : N) : byte :=
  match Byte.of_N (n mod 256) with
  | Some b => b
  | None => x00
  end.

(** [new Array(n)] has [n] empty slots; [a[i] = v] fills one, and extends
    the array when [i] is beyond its length. *)
Definition new_Array {A} (n : nat) : list (option A) := replicate n None.

Definition array_set {A} (a : list (option A)) (i : nat) (v : A) : list (option A) :=
  if (i <? length a)%nat then <[i := Some v]> a
  else a ++ replicate (i - length a) None ++ [Some v].

(** [new Uint8Array(array)]: an empty slot reads as [undefined], which
    converts to 0. *)
Definition Uint8Array (a : list (option N)) : list byte :=
  map (fun x => match x with Some n => to_uint8 n | None => x00 end) a.

Record Blob : Type := { blob_type : jsstring; blob_bytes : list byte }.

(** [new Blob(parts)] over typed arrays concatenates their bytes; an empty
    slot is [undefined] and contributes the text "undefined". *)
Definition undefined_bytes : list byte :=
  map byte_of_ascii (String.list_ascii_of_string "undefined").

Definition Blob_of_arrays (parts : list (option (list byte))) : Blob :=
  {| blob_type := [];
     blob_bytes := concat (map (fun p => match p with
                                         | Some a => a
                                         | None => undefined_bytes
                                         end) parts) |}.

(** [new Blob(chunks)] over blobs concatenates their contents. *)
Definition Blob_of_blobs (chunks : list Blob) : Blob :=
  {| blob_type := []; blob_bytes := concat (map blob_bytes chunks) |}.

(** ** [base64toBlob] (app.js, lines 148-168) *)

Definition sliceSize : nat := 1024.

(** [Math.ceil(a / b)] on lengths. *)
Definition ceil_div (a b : nat) : nat :=
  if (a mod b =? 0)%nat then a / b else S (a / b).

(** The inner loop, [for (offset = begin, i = 0; offset < end; ++i, ++offset)],
    with [n] iterations left.  [byteCharacters[offset]] is [undefined]
    outside the string, and calling [charCodeAt] on it is a [TypeError]. *)
Fixpoint fill_bytes (n : nat) (byteCharacters : jsstring) (offset i : nat)
    (bytes : list (option N)) : Completion (list (option N)) :=
  match n with
  | O => Normal bytes
  | S n' =>
      match byteCharacters !! offset with
      | None => Throw TypeError
      | Some c => fill_bytes n' byteCharacters (S offset) (S i) (array_set bytes i c)
      end
  end.

(** The outer loop, [for (sliceIndex = 0; sliceIndex < slicesCount; ++sliceIndex)],
    with [n] iterations left. *)
Fixpoint fill_slices (n : nat) (size : nat) (byteCharacters : jsstring)
    (sliceIndex : nat) (byteArrays : list (option (list byte)))
    : Completion (list (option (list byte))) :=
  match n with
  | O => Normal byteArrays
  | S n' =>
      let bytesLength := length byteCharacters in
      let begin := sliceIndex * size in
      let end_ := Nat.min (begin + size) bytesLength in
      bytes ← fill_bytes (end_ - begin) byteCharacters begin 0 (new_Array (end_ - begin));
      fill_slices n' size byteCharacters (S sliceIndex)
        (array_set byteArrays sliceIndex (Uint8Array bytes))
  end.

Definition base64toBlob (base64Data : jsstring) : Completion Blob :=
  byteCharacters ← atob base64Data;
  let bytesLength := length byteCharacters in
  let slicesCount := ceil_div bytesLength sliceSize in
  byteArrays ← fill_slices slicesCount sliceSize byteCharacters 0 (new_Array slicesCount);
  Normal (Blob_of_arrays byteArrays).

(** ** [FileReader.readAsDataURL] and the text kept by the script *)

(** The result of [readAsDataURL]: a [data:] URL holding the media type and the
    base64 text of the blob.  A blob without a type is served as
    [application/octet-stream].  Some engines answer the bare string [data:]
    for an empty blob; [bare_empty] tells whether the engine at hand does. *)
Definition readAsDataURL (bare_empty : bool) (blob : Blob) : jsstring :=
  let media_type :=
    match blob_type blob with
    | [] => str "application/octet-stream"
    | t => t
    end in
  match blob_bytes blob with
  | [] => if bare_empty then str "data:" else str "data:" ++ media_type ++ str ";base64,"
  | bytes => str "data:" ++ media_type ++ str ";base64," ++ Base64.encode bytes
  end.

(** Lines 97-101 of [reader.onloadend]: drop the content type and the base64
    indicator from the reader's result. *)
Definition strip_data_url (result : jsstring) : jsstring :=
  let base64data := result in
  let start := str "base64," in
  slice base64data (indexOf base64data start + Z.of_nat (length start))%Z.

(** ** JSON *)

Module JSON.

Local Open Scope N_scope.

Inductive value : Type :=
| JNull
| JBool (b : bool)
| JNumber (literal : jsstring)   (* the numeric literal as written *)
| JString (s : jsstring)
| JArray (elements : list value)
| JObject (members : list (jsstring * value)).

(** *** [JSON.parse] *)

Definition is_whitespace (c : N) : bool :=
  (c =? 9) || (c =? 10) || (c =? 13) || (c =? 32).

Fixpoint skip_ws (s : jsstring) : jsstring :=
  match s with
  | c :: s' => if is_whitespace c then skip_ws s' else s
  | [] => []
  end.

Definition is_digit (c : N) : bool := (48 <=? c) && (c <=? 57).

Definition hex_value (c : N) : option N :=
  if is_digit c then Some (c - 48)
  else if (97 <=? c) && (c <=? 102) then Some (c - 87)
  else if (65 <=? c) && (c <=? 70) then Some (c - 55)
  else None.

Definition hex4_value (h1 h2 h3 h4 : N) : option N :=
  match hex_value h1, hex_value h2, hex_value h3, hex_value h4 with
  | Some a, Some b, Some c, Some d => Some (((a * 16 + b) * 16 + c) * 16 + d)
  | _, _, _, _ => None
  end.

(** The character denoted by a single-character escape. *)
Definition escape_value (e : N) : option N :=
  if e =? 34 then Some 34            (* quotation mark *)
  else if e =? 92 then Some 92       (* reverse solidus *)
  else if e =? 47 then Some 47       (* solidus *)
  else if e =? 98 then Some 8        (* b: backspace *)
  else if e =? 102 then Some 12      (* f: form feed *)
  else if e =? 110 then Some 10      (* n: line feed *)
  else if e =? 114 then Some 13      (* r: carriage return *)
  else if e =? 116 then Some 9       (* t: tabulation *)
  else None.

(** The characters of a string literal after its opening quote, up to and
    including the closing quote. *)
Fixpoint string_chars (s : jsstring) : option (jsstring * jsstring) :=
  match s with
  | [] => None
  | c :: r =>
      if c =? 34 then Some ([], r)
      else if c =? 92 then
        match r with
        | [] => None
        | e :: r1 =>
            if e =? 117 then
              match r1 with
              | h1 :: h2 :: h3 :: h4 :: r2 =>
                  match hex4_value h1 h2 h3 h4, string_chars r2 with
                  | Some u, Some (cs, rest) => Some (u :: cs, rest)
                  | _, _ => None
                  end
              | _ => None
              end
            else
              match escape_value e, string_chars r1 with
              | Some u, Some (cs, rest) => Some (u :: cs, rest)
              | _, _ => None
              end
        end
      else if c <? 32 then None
      else
        match string_chars r with
        | Some (cs, rest) => Some (c :: cs, rest)
        | None => None
        end
  end.

(** A run of digits: the digits and what follows them. *)
Fixpoint digits (s : jsstring) : jsstring * jsstring :=
  match s with
  | c :: s' =>
      if is_digit c then let '(ds, rest) := digits s' in (c :: ds, rest)
      else ([], s)
  | [] => ([], [])
  end.

(** A numeric literal: an optional minus sign; an integer part, which is 0
    or starts with a digit from 1 to 9; an optional fraction, a point and
    at least one digit; an optional exponent, e or E, an optional sign and
    at least one digit. *)
Definition number_int (s : jsstring) : option (jsstring * jsstring) :=
  match s with
  | c :: s' =>
      if c =? 48 then Some ([c], s')
      else if is_digit c then let '(ds, rest) := digits s' in Some (c :: ds, rest)
      else None
  | [] => None
  end.

Definition number_frac (s : jsstring) : option (jsstring * jsstring) :=
  match s with
  | c :: s' =>
      if c =? 46 then
        match digits s' with
        | ([], _) => None
        | (ds, rest) => Some (c :: ds, rest)
        end
      else Some ([], s)
  | [] => Some ([], [])
  end.

Definition number_exp (s : jsstring) : option (jsstring * jsstring) :=
  match s with
  | c :: s' =>
      if (c =? 101) || (c =? 69) then
        let '(sign, s1) :=
          match s' with
          | d :: s1 => if (d =? 43) || (d =? 45) then ([d], s1) else ([], s')
          | [] => ([], s')
          end in
        match digits s1 with
        | ([], _) => None
        | (ds, rest) => Some (c :: sign ++ ds, rest)
        end
      else Some ([], s)
  | [] => Some ([], [])
  end.

Definition number (s : jsstring) : option (jsstring * jsstring) :=
  let '(sign, s0) :=
    match s with
    | c :: s' => if c =? 45 then ([c], s') else ([], s)
    | [] => ([], s)
    end in
  match number_int s0 with
  | None => None
  | Some (i, s1) =>
      match number_frac s1 with
      | None => None
      | Some (f, s2) =>
          match number_exp s2 with
          | None => None
          | Some (e, s3) => Some (sign ++ i ++ f ++ e, s3)
          end
      end
  end.

(** A literal name: the rest of the text when it starts with the name. *)
Definition keyword (k s : jsstring) : option jsstring :=
  if starts_with k s then Some (drop (length k) s) else None.

(** Values, array elements and object members.  [fuel] bounds the number of
    nested calls; each call but the first follows a consumed character, so
    twice the length of the text is enough. *)
Fixpoint parse_value (fuel : nat) (s : jsstring) : option (value * jsstring) :=
  match fuel with
  | O => None
  | S fuel' =>
      match skip_ws s with
      | [] => None
      | c :: r =>
          if c =? 123 then                       (* { *)
            match skip_ws r with
            | c' :: r' =>
                if c' =? 125 then Some (JObject [], r')
                else match parse_members fuel' (c' :: r') with
                     | Some (ms, rest) => Some (JObject ms, rest)
                     | None => None
                     end
            | [] => None
            end
          else if c =? 91 then                   (* [ *)
            match skip_ws r with
            | c' :: r' =>
                if c' =? 93 then Some (JArray [], r')
                else match parse_elements fuel' (c' :: r') with
                     | Some (vs, rest) => Some (JArray vs, rest)
                     | None => None
                     end
            | [] => None
            end
          else if c =? 34 then                   (* a string *)
            match string_chars r with
            | Some (cs, rest) => Some (JString cs, rest)
            | None => None
            end
          else if c =? 110 then                  (* null *)
            match keyword (str "null") (c :: r) with
            | Some rest => Some (JNull, rest)
            | None => None
            end
          else if c =? 116 then                  (* true *)
            match keyword (str "true") (c :: r) with
            | Some rest => Some (JBool true, rest)
            | None => None
            end
          else if c =? 102 then                  (* false *)
            match keyword (str "false") (c :: r) with
            | Some rest => Some (JBool false, rest)
            | None => None
            end
          else
            match number (c :: r) with
            | Some (lit, rest) => Some (JNumber lit, rest)
            | None => None
            end
      end
  end
with parse_elements (fuel : nat) (s : jsstring) : option (list value * jsstring) :=
  match fuel with
  | O => None
  | S fuel' =>
      match parse_value fuel' s with
      | None => None
      | Some (v, r) =>
          match skip_ws r with
          | c :: r' =>
              if c =? 44 then                    (* , *)
                match parse_elements fuel' r' with
                | Some (vs, rest) => Some (v :: vs, rest)
                | None => None
                end
              else if c =? 93 then Some ([v], r')
              else None
          | [] => None
          end
      end
  end
with parse_members (fuel : nat) (s : jsstring)
    : option (list (jsstring * value) * jsstring) :=
  match fuel with
  | O => None
  | S fuel' =>
      match skip_ws s with
      | q :: r0 =>
          if q =? 34 then
            match string_chars r0 with
            | None => None
            | Some (key, r1) =>
                match skip_ws r1 with
                | colon :: r2 =>
                    if colon =? 58 then
                      match parse_value fuel' r2 with
                      | None => None
                      | Some (v, r3) =>
                          match skip_ws r3 with
                          | c :: r4 =>
                              if c =? 44 then
                                match parse_members fuel' r4 with
                                | Some (ms, rest) => Some ((key, v) :: ms, rest)
                                | None => None
                                end
                              else if c =? 125 then Some ([(key, v)], r4)
                              else None
                          | [] => None
                          end
                      end
                    else None
                | [] => None
                end
            end
          else None
      | [] => None
      end
  end.

(** [JSON.parse(text)]: one value between optional white space, or a
    [SyntaxError]. *)
Definition parse (text : jsstring) : Completion value :=
  match parse_value (2 * length text + 2) text with
  | Some (v, rest) =>
      match skip_ws rest with
      | [] => Normal v
      | _ :: _ => Throw SyntaxError
      end
  | None => Throw SyntaxError
  end.

(** *** [JSON.stringify] on strings *)

Definition hex_digit (n : N) : N := if n <? 10 then 48 + n else 87 + n.

(** The escape of one code unit: reverse solidus, u, and four lower-case
    hexadecimal digits. *)
Definition unicode_escape (c : N) : jsstring :=
  [92; 117; hex_digit (c / 4096); hex_digit ((c / 256) mod 16);
   hex_digit ((c / 16) mod 16); hex_digit (c mod 16)].

Definition is_leading_surrogate (c : N) : bool := (55296 <=? c) && (c <=? 56319).
Definition is_trailing_surrogate (c : N) : bool := (56320 <=? c) && (c <=? 57343).

(** The body of [QuoteJSONString]: the code points of the string are
    escaped or copied; a surrogate pair is one code point and is copied,
    a lone surrogate is escaped. *)
Fixpoint quote_chars (s : jsstring) : jsstring :=
  match s with
  | [] => []
  | c :: r =>
      if c =? 8 then 92 :: 98 :: quote_chars r
      else if c =? 9 then 92 :: 116 :: quote_chars r
      else if c =? 10 then 92 :: 110 :: quote_chars r
      else if c =? 12 then 92 :: 102 :: quote_chars r
      else if c =? 13 then 92 :: 114 :: quote_chars r
      else if c =? 34 then 92 :: 34 :: quote_chars r
      else if c =? 92 then 92 :: 92 :: quote_chars r
      else if c <? 32 then unicode_escape c ++ quote_chars r
      else if is_leading_surrogate c then
        match r with
        | d :: r' =>
            if is_trailing_surrogate d then c :: d :: quote_chars r'
            else unicode_escape c ++ quote_chars r
        | [] => unicode_escape c
        end
      else if is_trailing_surrogate c then unicode_escape c ++ quote_chars r
      else c :: quote_chars r
  end.

Definition quote (s : jsstring) : jsstring := 34 :: quote_chars s ++ [34].

End JSON.

(** ** [localStorage] *)

(** The storage area of the origin: its items, the room the browser grants
    (counted in code units of keys and values), and whether the page may use
    it at all. *)
Record Storage : Type := {
  accessible : bool;
  quota : N;
  items : gmap jsstring jsstring
}.

Definition storage_size (m : gmap jsstring jsstring) : N :=
  map_fold (fun k v n => N.of_nat (length k + length v) + n)%N 0%N m.

Definition getItem (key : jsstring) (st : Storage) : Completion (option jsstring) :=
  if accessible st then Normal (items st !! key) else Throw SecurityError.

Definition setItem (key v : jsstring) (st : Storage) : Completion Storage :=
  if accessible st then
    let items' := <[key := v]> (items st) in
    if (storage_size items' <=? quota st)%N
    then Normal {| accessible := true; quota := quota st; items := items' |}
    else Throw QuotaExceededError
  else Throw SecurityError.

Definition removeItem (key : jsstring) (st : Storage) : Completion Storage :=
  if accessible st
  then Normal {| accessible := true; quota := quota st; items := delete key (items st) |}
  else Throw SecurityError.

(** [checkForLocalStorage] (lines 222-233): the answer, and the storage
    after the probe. *)
Definition checkForLocalStorage (st : Storage) : bool * Storage :=
  let test := str "test" in
  match setItem test test st with
  | Throw _ => (false, st)
  | Normal st1 =>
      match removeItem test st1 with
      | Throw _ => (false, st1)
      | Normal st2 => (true, st2)
      end
  end.

(** ** The catalogue *)

Record SoundEntry : Type := { name : jsstring; data : jsstring }.

(** [JSON.stringify(sounds)]: the array of the objects built at lines
    104-107, each with its two string properties in creation order. *)
Definition stringify_sound (sound : SoundEntry) : jsstring :=
  [123%N] ++ JSON.quote (str "name") ++ [58%N] ++ JSON.quote (name sound)
    ++ [44%N] ++ JSON.quote (str "data") ++ [58%N] ++ JSON.quote (data sound)
    ++ [125%N].

Fixpoint join_comma (l : list jsstring) : jsstring :=
  match l with
  | [] => []
  | [x] => x
  | x :: l' => x ++ [44%N] ++ join_comma l'
  end.

Definition JSON_stringify (sounds : list SoundEntry) : jsstring :=
  [91%N] ++ join_comma (map stringify_sound sounds) ++ [93%N].

(** The parsed values the model follows the script on: an object with the
    string properties [name] and [data], in this order, is a sound. *)
Definition as_sound (v : JSON.value) : option SoundEntry :=
  match v with
  | JSON.JObject [(k1, JSON.JString n); (k2, JSON.JString d)] =>
      if decide (k1 = str "name" /\ k2 = str "data")
      then Some {| name := n; data := d |}
      else None
  | _ => None
  end.

Fixpoint as_sounds (l : list JSON.value) : option (list SoundEntry) :=
  match l with
  | [] => Some []
  | v :: l' =>
      match as_sound v, as_sounds l' with
      | Some e, Some es => Some (e :: es)
      | _, _ => None
      end
  end.

(** ** The page *)

(** A card of the board: its caption and the blob it plays. *)
Record Card : Type := { card_text : jsstring; card_sound : Blob }.

(** A [MediaRecorder] with what its handlers close over: the [chunks] array
    of the click that asked for the stream, and the stream. *)
Record Recorder : Type := {
  rec_active : bool;        (* [state] is "recording" rather than "inactive" *)
  rec_stopped : bool;       (* the [stop] event has been fired *)
  rec_chunks : list Blob;   (* [chunks] *)
  rec_stream_live : bool    (* the tracks of [stream] have not been stopped *)
}.

(** A [FileReader] started at line 94, with the [name] and [blob] its
    [onloadend] handler closes over. *)
Record Reader : Type := { reader_name : jsstring; reader_blob : Blob }.

Record Page : Type := {
  mediaDevices : bool;   (* [navigator.mediaDevices] is defined *)
  bare_empty_data_url : bool;   (* the engine reads an empty blob as the bare [data:] *)
  strict_stop : bool;   (* the engine throws when an inactive recorder is stopped *)
  localStorage : Storage;   (* the origin's storage area *)
  hasLocalStorage : bool;   (* line 5 *)
  recording : bool;   (* line 8 *)
  mediaRecorder : option nat;   (* line 9: [undefined] or a recorder of [recorders] *)
  sounds : list SoundEntry;   (* line 10 *)
  recordBtn_textContent : jsstring;
  recordBtn_background : jsstring;   (* [recordBtn.style.background] *)
  recordBtn_onclick : bool;   (* the click handler of lines 29-118 is installed *)
  board : list Card;   (* the cards appended to [boardEl] *)
  recorders : list Recorder;   (* the [MediaRecorder] objects created so far *)
  requests : nat;   (* [getUserMedia] promises not settled yet *)
  readers : list Reader   (* [FileReader]s whose read is in progress *)
}.

Definition set_localStorage (v : Storage) (p : Page) : Page :=
  {| mediaDevices := mediaDevices p;
     bare_empty_data_url := bare_empty_data_url p;
     strict_stop := strict_stop p; localStorage := v;
     hasLocalStorage := hasLocalStorage p; recording := recording p;
     mediaRecorder := mediaRecorder p; sounds := sounds p;
     recordBtn_textContent := recordBtn_textContent p;
     recordBtn_background := recordBtn_background p;
     recordBtn_onclick := recordBtn_onclick p; board := board p;
     recorders := recorders p; requests := requests p; readers := readers p |}.

Definition set_recording (v : bool) (p : Page) : Page :=
  {| mediaDevices := mediaDevices p;
     bare_empty_data_url := bare_empty_data_url p;
     strict_stop := strict_stop p;
     localStorage := localStorage p; hasLocalStorage := hasLocalStorage p;
     recording := v; mediaRecorder := mediaRecorder p; sounds := sounds p;
     recordBtn_textContent := recordBtn_textContent p;
     recordBtn_background := recordBtn_background p;
     recordBtn_onclick := recordBtn_onclick p; board := board p;
     recorders := recorders p; requests := requests p; readers := readers p |}.

Definition set_mediaRecorder (v : option nat) (p : Page) : Page :=
  {| mediaDevices := mediaDevices p;
     bare_empty_data_url := bare_empty_data_url p;
     strict_stop := strict_stop p;
     localStorage := localStorage p; hasLocalStorage := hasLocalStorage p;
     recording := recording p; mediaRecorder := v; sounds := sounds p;
     recordBtn_textContent := recordBtn_textContent p;
     recordBtn_background := recordBtn_background p;
     recordBtn_onclick := recordBtn_onclick p; board := board p;
     recorders := recorders p; requests := requests p; readers := readers p |}.

Definition set_sounds (v : list SoundEntry) (p : Page) : Page :=
  {| mediaDevices := mediaDevices p;
     bare_empty_data_url := bare_empty_data_url p;
     strict_stop := strict_stop p;
     localStorage := localStorage p; hasLocalStorage := hasLocalStorage p;
     recording := recording p; mediaRecorder := mediaRecorder p; sounds := v;
     recordBtn_textContent := recordBtn_textContent p;
     recordBtn_background := recordBtn_background p;
     recordBtn_onclick := recordBtn_onclick p; board := board p;
     recorders := recorders p; requests := requests p; readers := readers p |}.

Definition set_recordBtn_textContent (v : jsstring) (p : Page) : Page :=
  {| mediaDevices := mediaDevices p;
     bare_empty_data_url := bare_empty_data_url p;
     strict_stop := strict_stop p;
     localStorage := localStorage p; hasLocalStorage := hasLocalStorage p;
     recording := recording p; mediaRecorder := mediaRecorder p;
     sounds := sounds p; recordBtn_textContent := v;
     recordBtn_background := recordBtn_background p;
     recordBtn_onclick := recordBtn_onclick p; board := board p;
     recorders := recorders p; requests := requests p; readers := readers p |}.

Definition set_recordBtn_background (v : jsstring) (p : Page) : Page :=
  {| mediaDevices := mediaDevices p;
     bare_empty_data_url := bare_empty_data_url p;
     strict_stop := strict_stop p;
     localStorage := localStorage p; hasLocalStorage := hasLocalStorage p;
     recording := recording p; mediaRecorder := mediaRecorder p;
     sounds := sounds p; recordBtn_textContent := recordBtn_textContent p;
     recordBtn_background := v; recordBtn_onclick := recordBtn_onclick p;
     board := board p; recorders := recorders p; requests := requests p;
     readers := readers p |}.

Definition set_recordBtn_onclick (v : bool) (p : Page) : Page :=
  {| mediaDevices := mediaDevices p;
     bare_empty_data_url := bare_empty_data_url p;
     strict_stop := strict_stop p;
     localStorage := localStorage p; hasLocalStorage := hasLocalStorage p;
     recording := recording p; mediaRecorder := mediaRecorder p;
     sounds := sounds p; recordBtn_textContent := recordBtn_textContent p;
     recordBtn_background := recordBtn_background p; recordBtn_onclick := v;
     board := board p; recorders := recorders p; requests := requests p;
     readers := readers p |}.

Definition set_board (v : list Card) (p : Page) : Page :=
  {| mediaDevices := mediaDevices p;
     bare_empty_data_url := bare_empty_data_url p;
     strict_stop := strict_stop p;
     localStorage := localStorage p; hasLocalStorage := hasLocalStorage p;
     recording := recording p; mediaRecorder := mediaRecorder p;
     sounds := sounds p; recordBtn_textContent := recordBtn_textContent p;
     recordBtn_background := recordBtn_background p;
     recordBtn_onclick := recordBtn_onclick p; board := v;
     recorders := recorders p; requests := requests p; readers := readers p |}.

Definition set_recorders (v : list Recorder) (p : Page) : Page :=
  {| mediaDevices := mediaDevices p;
     bare_empty_data_url := bare_empty_data_url p;
     strict_stop := strict_stop p;
     localStorage := localStorage p; hasLocalStorage := hasLocalStorage p;
     recording := recording p; mediaRecorder := mediaRecorder p;
     sounds := sounds p; recordBtn_textContent := recordBtn_textContent p;
     recordBtn_background := recordBtn_background p;
     recordBtn_onclick := recordBtn_onclick p; board := board p;
     recorders := v; requests := requests p; readers := readers p |}.

Definition set_requests (v : nat) (p : Page) : Page :=
  {| mediaDevices := mediaDevices p;
     bare_empty_data_url := bare_empty_data_url p;
     strict_stop := strict_stop p;
     localStorage := localStorage p; hasLocalStorage := hasLocalStorage p;
     recording := recording p; mediaRecorder := mediaRecorder p;
     sounds := sounds p; recordBtn_textContent := recordBtn_textContent p;
     recordBtn_background := recordBtn_background p;
     recordBtn_onclick := recordBtn_onclick p; board := board p;
     recorders := recorders p; requests := v; readers := readers p |}.

Definition set_readers (v : list Reader) (p : Page) : Page :=
  {| mediaDevices := mediaDevices p;
     bare_empty_data_url := bare_empty_data_url p;
     strict_stop := strict_stop p;
     localStorage := localStorage p; hasLocalStorage := hasLocalStorage p;
     recording := recording p; mediaRecorder := mediaRecorder p;
     sounds := sounds p; recordBtn_textContent := recordBtn_textContent p;
     recordBtn_background := recordBtn_background p;
     recordBtn_onclick := recordBtn_onclick p; board := board p;
     recorders := recorders p; requests := requests p; readers := v |}.

(** How a handler or the script ends: normally, with an uncaught exception,
    or outside what the model describes. *)
Inductive Outcome : Type :=
| Returned
| Threw (e : Error)
| OutOfModel.

(** [createSoundboardButton] (lines 126-141) with [createElement] (lines
    176-215): a card with class [card], a click handler playing the blob and
    a [span] child holding the name is appended to the board. *)
Definition createSoundboardButton (name : jsstring) (soundBlob : Blob) (p : Page) : Page :=
  set_board (board p ++ [{| card_text := name; card_sound := soundBlob |}]) p.

(** *** Start of the page: [initUI] (lines 15-119) *)

(** Line 23: [sounds.map(sound => createSoundboardButton(sound.name,
    base64toBlob(sound.data)))], one sound after the other; an exception of
    [base64toBlob] ends the traversal. *)
Fixpoint render_sounds (l : list SoundEntry) (p : Page) : Page * Outcome :=
  match l with
  | [] => (p, Returned)
  | sound :: l' =>
      match base64toBlob (data sound) with
      | Throw e => (p, Threw e)
      | Normal blob => render_sounds l' (createSoundboardButton (name sound) blob p)
      end
  end.

(** Lines 17-24.  [getItem] answers [null] for a missing key, which
    [JSON.parse] reads as the text [null]; [null], [false] and the empty
    string are falsy and give way to [[]].  The model follows the script when
    the parsed value is falsy or an array of sounds. *)
Definition load (p : Page) : Page * Outcome :=
  if hasLocalStorage p then
    match getItem (str "sounds") (localStorage p) with
    | Throw e => (p, Threw e)
    | Normal item =>
        let text := match item with Some s => s | None => str "null" end in
        match JSON.parse text with
        | Throw e => (p, Threw e)
        | Normal v =>
            match v with
            | JSON.JNull | JSON.JBool false | JSON.JString [] =>
                let p := set_sounds [] p in
                render_sounds (sounds p) p
            | JSON.JArray l =>
                match as_sounds l with
                | Some ss =>
                    let p := set_sounds ss p in
                    render_sounds (sounds p) p
                | None => (p, OutOfModel)
                end
            | _ => (p, OutOfModel)
            end
        end
    end
  else (p, Returned).

(** [initUI]: load the sounds, then bind the record button. *)
Definition initUI (p : Page) : Page * Outcome :=
  match load p with
  | (p', Returned) => (set_recordBtn_onclick true p', Returned)
  | (p', o) => (p', o)
  end.

(** The whole script on a freshly opened document: lines 5-10 initialise the
    variables, then [initUI] runs. *)
Definition script (mediaDevices bare_empty strict : bool) (storage : Storage)
    (button_text : jsstring) : Page * Outcome :=
  let '(has, storage') := checkForLocalStorage storage in
  initUI {| mediaDevices := mediaDevices;
            bare_empty_data_url := bare_empty;
            strict_stop := strict;
            localStorage := storage';
            hasLocalStorage := has;
            recording := false;
            mediaRecorder := None;
            sounds := [];
            recordBtn_textContent := button_text;
            recordBtn_background := [];
            recordBtn_onclick := false;
            board := [];
            recorders := [];
            requests := 0;
            readers := [] |}.

(** *** The record button: [recordBtn.onclick] (lines 29-118) *)

Definition set_recorder (r : nat) (rc : Recorder) (p : Page) : Page :=
  set_recorders (<[r := rc]> (recorders p)) p.

(** [mediaRecorder.stop()]: an active recorder becomes inactive and its
    [stop] event will be fired.  On an inactive recorder the call does
    nothing, or throws an [InvalidStateError] in the engines that are strict
    about it. *)
Definition MediaRecorder_stop (r : nat) (p : Page) : Completion Page :=
  match recorders p !! r with
  | Some rc =>
      if rec_active rc
      then Normal (set_recorder r {| rec_active := false; rec_stopped := rec_stopped rc;
                                     rec_chunks := rec_chunks rc;
                                     rec_stream_live := rec_stream_live rc |} p)
      else if strict_stop p then Throw InvalidStateError
      else Normal p
  | None => Normal p
  end.

Definition onclick (p : Page) : Page * Outcome :=
  if negb (mediaDevices p) then (p, Returned)
  else if recording p then
    match mediaRecorder p with
    | Some r =>
        let p := set_recording false p in
        let p := set_recordBtn_textContent (str "Record New Sound") p in
        match MediaRecorder_stop r p with
        | Throw e => (p, Threw e)
        | Normal p =>
            let p := set_recordBtn_background [] p in
            (p, Returned)
        end
    | None => (p, Returned)
    end
  else
    let p := set_recording true p in
    let p := set_recordBtn_textContent (str "Stop Recording") p in
    (* [const chunks = []] and the call of [getUserMedia]: a pending promise *)
    let p := set_requests (S (requests p)) p in
    (p, Returned).

(** Lines 67-79, the callback of the promise: a recorder is created on the
    stream and started, and its handlers are bound. *)
Definition getUserMedia_then (p : Page) : Page * Outcome :=
  let r := length (recorders p) in
  let p := set_recorders (recorders p ++ [{| rec_active := true; rec_stopped := false;
                                             rec_chunks := [];
                                             rec_stream_live := true |}]) p in
  let p := set_mediaRecorder (Some r) p in
  let p := set_recordBtn_background (str "red") p in
  (p, Returned).

(** Line 76: [mediaRecorder.ondataavailable = e => chunks.push(e.data)]. *)
Definition ondataavailable (r : nat) (rc : Recorder) (chunk : Blob) (p : Page)
    : Page * Outcome :=
  (set_recorder r {| rec_active := rec_active rc; rec_stopped := rec_stopped rc;
                     rec_chunks := rec_chunks rc ++ [chunk];
                     rec_stream_live := rec_stream_live rc |} p, Returned).

(** Line 84: [prompt(...) || ""].  The prompt answers [null] when it is
    dismissed; [null] and the empty string are falsy. *)
Definition prompt_name (answer : option jsstring) : jsstring :=
  match answer with
  | None => []
  | Some [] => []
  | Some s => s
  end.

(** Lines 79-95, [mediaRecorder.onstop]: the tracks are stopped, the user is
    asked for a name, the card is created and the reader is started. *)
Definition onstop (r : nat) (rc : Recorder) (answer : option jsstring) (p : Page)
    : Page * Outcome :=
  let p := set_recorder r {| rec_active := rec_active rc; rec_stopped := rec_stopped rc;
                             rec_chunks := rec_chunks rc;
                             rec_stream_live := false |} p in
  let name := prompt_name answer in
  let blob := Blob_of_blobs (rec_chunks rc) in
  let p := createSoundboardButton name blob p in
  let p := set_readers (readers p ++ [{| reader_name := name; reader_blob := blob |}]) p in
  (p, Returned).

(** Lines 104-113: the sound is pushed on [sounds], and the whole array is
    written to the store when the store was found at start. *)
Definition append (sound : SoundEntry) (p : Page) : Page * Outcome :=
  let p := set_sounds (sounds p ++ [sound]) p in
  if hasLocalStorage p then
    match setItem (str "sounds") (JSON_stringify (sounds p)) (localStorage p) with
    | Normal st => (set_localStorage st p, Returned)
    | Throw e => (p, Threw e)
    end
  else (p, Returned).

(** Lines 95-114, [reader.onloadend]. *)
Definition onloadend (rd : Reader) (p : Page) : Page * Outcome :=
  let base64data := strip_data_url (readAsDataURL (bare_empty_data_url p) (reader_blob rd)) in
  append {| name := reader_name rd; data := base64data |} p.

(** *** Events

    The browser runs the handlers one at a time.  An event can occur only
    when its handler is bound: a promise settles once, a recorder delivers
    data until its [stop] event, a reader ends once. *)
Inductive Event : Type :=
| Click
| StreamGranted
| StreamDenied
| DataAvailable (r : nat) (chunk : Blob)
| RecorderStop (r : nat) (answer : option jsstring)
| LoadEnd (k : nat).

Definition step (ev : Event) (p : Page) : option (Page * Outcome) :=
  match ev with
  | Click => Some (if recordBtn_onclick p then onclick p else (p, Returned))
  | StreamGranted =>
      match requests p with
      | O => None
      | S n => Some (getUserMedia_then (set_requests n p))
      end
  | StreamDenied =>
      match requests p with
      | O => None
      | S n => Some (set_requests n p, Returned)
      end
  | DataAvailable r chunk =>
      match recorders p !! r with
      | Some rc => if rec_stopped rc then None else Some (ondataavailable r rc chunk p)
      | None => None
      end
  | RecorderStop r answer =>
      match recorders p !! r with
      | Some rc =>
          if rec_stopped rc then None
          else Some (onstop r {| rec_active := false; rec_stopped := true;
                                 rec_chunks := rec_chunks rc;
                                 rec_stream_live := rec_stream_live rc |} answer p)
      | None => None
      end
  | LoadEnd k =>
      match readers p !! k with
      | Some rd => Some (onloadend rd (set_readers (delete k (readers p)) p))
      | None => None
      end
  end.

(** A run of events; an uncaught exception of a handler is reported and the
    page goes on. *)
Fixpoint run (evs : list Event) (p : Page) : option Page :=
  match evs with
  | [] => Some p
  | ev :: evs' =>
      match step ev p with
      | Some (p', _) => run evs' p'
      | None => None
      end
  end.

(** *** The stated behaviour, in the words of the specification *)

(** The recording session as a machine with two states. *)
Inductive Session : Type := Idle | Recording.

Definition session (p : Page) : Session := if recording p then Recording else Idle.

Definition toggle (s : Session) : Session :=
  match s with
  | Idle => Recording
  | Recording => Idle
  end.

(** The codec: [encode] is the text kept from the data URL, [decode] is
    [base64toBlob]. *)
Definition encode (bare_empty : bool) (bytes : list byte) : jsstring :=
  strip_data_url (readAsDataURL bare_empty {| blob_type := []; blob_bytes := bytes |}).

Definition decode (text : jsstring) : Completion (list byte) :=
  blob ← base64toBlob text; Normal (blob_bytes blob).

(** A plain decode: every character of the [atob] output gives one byte, in
    one pass, without slices. *)
Definition plain_decode (base64Data : jsstring) : Completion (list byte) :=
  byteCharacters ← atob base64Data; Normal (map to_uint8 byteCharacters).

(** ** Notions used in the statements and proofs *)

(** The characters of slice [k]. *)
Definition slice_of (size : nat) (chars : jsstring) (k : nat) : list N :=
  take (Nat.min (k * size + size) (length chars) - k * size) (drop (k * size) chars).

(** The value [JSON.parse] builds for a sound written by [JSON.stringify]. *)
Definition sound_value (sound : SoundEntry) : JSON.value :=
  JSON.JObject [(str "name", JSON.JString (name sound));
                (str "data", JSON.JString (data sound))].

Definition wf_sound (sound : SoundEntry) : Prop :=
  wf_string (name sound) /\ wf_string (data sound).

(** A sound whose [data] decodes: the invariant of the catalogue. *)
Definition valid_sound (sound : SoundEntry) : Prop :=
  wf_sound sound /\ exists bytes, atob (data sound) = Normal bytes.

(** Stores used in examples. *)
Definition empty_storage : Storage :=
  {| accessible := true; quota := 5000000; items := ∅ |}.

Definition corrupted_storage : Storage :=
  {| accessible := true; quota := 5000000; items := {[ str "sounds" := str "{" ]} |}.

Definition clap : SoundEntry := {| name := str "clap"; data := str "UklGRg==" |}.
Definition snap : SoundEntry := {| name := str "snap"; data := str "AAEC" |}.

Definition small_storage : Storage :=
  {| accessible := true; quota := 60; items := ∅ |}.

Definition closed_storage : Storage :=
  {| accessible := false; quota := 5000000; items := ∅ |}.


(** A session whose request for the microphone was refused: the flag is
    set, and there is no recorder, no pending request and no reader. *)
Definition refused (p : Page) : Prop :=
  recording p = true /\ mediaRecorder p = None /\ requests p = 0
  /\ recorders p = [] /\ readers p = [].

(** ** Notions used for the board, the recorders and the document *)

(** The card [onstop] creates for a recording whose reader is in progress. *)
Definition card_of_reader (rd : Reader) : Card :=
  {| card_text := reader_name rd; card_sound := reader_blob rd |}.

(** A card shows a sound: it carries the sound's name and plays the blob the
    sound's [data] decodes to. *)
Definition shows (sound : SoundEntry) (card : Card) : Prop :=
  card_text card = name sound /\ base64toBlob (data sound) = Normal (card_sound card).

(** A store that already holds an item under the key of the probe. *)
Definition storage_with_test : Storage :=
  {| accessible := true; quota := 5000000;
     items := {[ str "test" := str "mine"; str "sounds" := str "[]" ]} |}.

(** A sound whose [data] is not base64. *)
Definition noise : SoundEntry := {| name := str "noise"; data := str "!" |}.

(** The number of events of a kind in a run. *)
Fixpoint count_events (kind : Event -> bool) (evs : list Event) : nat :=
  match evs with
  | [] => 0
  | ev :: evs' => (if kind ev then 1 else 0) + count_events kind evs'
  end.

Definition is_LoadEnd (ev : Event) : bool :=
  match ev with LoadEnd _ => true | _ => false end.

Definition is_RecorderStop (ev : Event) : bool :=
  match ev with RecorderStop _ _ => true | _ => false end.

(** Each card is the card of one sound of the catalogue or of one reader in
    progress, and conversely; the blobs of the readers have no type. *)
Definition board_matches (p : Page) : Prop :=
  Forall (fun rd => blob_type (reader_blob rd) = []) (readers p)
  /\ exists cards,
       Forall2 shows (sounds p) cards
       /\ board p ≡ₚ cards ++ map card_of_reader (readers p).

(** A recorder holds its stream until its [stop] event is handled, and is
    inactive from then on. *)
Definition recorder_ok (rc : Recorder) : Prop :=
  rec_stream_live rc = negb (rec_stopped rc)
  /\ (rec_stopped rc = true -> rec_active rc = false).

(** [mediaRecorder] is [undefined] or the recorder created last. *)
Definition recorders_ok (p : Page) : Prop :=
  Forall recorder_ok (recorders p)
  /\ forall r, mediaRecorder p = Some r -> S r = length (recorders p).

(** The label of the record button tells the flag. *)
Definition label_ok (initial : jsstring) (p : Page) : Prop :=
  if recording p then recordBtn_textContent p = str "Stop Recording"
  else recordBtn_textContent p = initial
       \/ recordBtn_textContent p = str "Record New Sound".

(** ** The document: [createElement] (lines 176-215) and
    [createSoundboardButton] (lines 126-141) on the nodes themselves *)

Module DOM.

(** A value given to an attribute by the script: a string, or the click
    handler of lines 130-136, which plays a blob. *)
Inductive Value : Type :=
| VString (s : jsstring)
| VPlay (soundBlob : Blob).

(** What [createElement] has done to an element for one attribute: an
    assignment to a property, or a call of [setAttribute] that returned. *)
Inductive Assignment : Type :=
| TextContent (value : jsstring)
| Onclick (value : Value)
| Onkeydown (value : Value)
| SetAttribute (attr : jsstring) (value : Value).

(** A child of an element: another element, referred to by its position in
    the document, or a text node, given by its data. *)
Inductive Child : Type :=
| ChildElement (el : nat)
| ChildText (data : jsstring).

(** An element: the tag it was created with, what has been done to it, in
    order, and its children. *)
Record Element : Type := {
  tag : jsstring;
  assignments : list Assignment;
  childNodes : list Child
}.

(** Names.  [document.createElement] and [setAttribute] throw an
    [InvalidCharacterError] for a name they do not accept.  Every engine
    accepts a letter followed by letters, digits and hyphens, and none
    accepts the empty name or a name with white space in it; on the other
    names the engines differ, and the model says nothing. *)
Definition is_letter (c : N) : bool :=
  ((65 <=? c) && (c <=? 90) || (97 <=? c) && (c <=? 122))%N.

Definition is_digit (c : N) : bool := ((48 <=? c) && (c <=? 57))%N.

Definition is_whitespace (c : N) : bool :=
  ((c =? 9) || (c =? 10) || (c =? 12) || (c =? 13) || (c =? 32))%N.

Definition plain_name (name : jsstring) : bool :=
  match name with
  | c :: rest =>
      is_letter c && forallb (fun c => is_letter c || is_digit c || (c =? 45)%N) rest
  | [] => false
  end.

Definition bad_name (name : jsstring) : bool :=
  match name with
  | [] => true
  | _ => existsb is_whitespace name
  end.

(** The children of an element after an assignment of a string to
    [textContent]: one text node, or none for the empty string. *)
Definition text_children (s : jsstring) : list Child :=
  match s with
  | [] => []
  | _ => [ChildText s]
  end.

Definition assigned (a : Assignment) (el : Element) : Element :=
  {| tag := tag el; assignments := assignments el ++ [a];
     childNodes := childNodes el |}.

(** The [forEach] of lines 182-208 over the entries of [attributes], in
    their order.  An assignment to [textContent] replaces the children; a
    name [setAttribute] refuses ends the loop with its exception, and the
    entries after it are not looked at.  The result is [None] where the
    model says nothing: the children that the engine makes for [innerText]
    and for [innerHTML], the text of a function, and the names on which the
    engines differ. *)
Fixpoint set_attributes (attributes : list (jsstring * Value)) (el : Element)
    : option (Element * Completion unit) :=
  match attributes with
  | [] => Some (el, Normal tt)
  | (attr, value) :: rest =>
      if decide (attr = str "innerText") then None
      else if decide (attr = str "innerHTML") then None
      else if decide (attr = str "textContent") then
        match value with
        | VString s =>
            set_attributes rest
              {| tag := tag el; assignments := assignments el ++ [TextContent s];
                 childNodes := text_children s |}
        | VPlay _ => None
        end
      else if decide (attr = str "onclick") then
        set_attributes rest (assigned (Onclick value) el)
      else if decide (attr = str "onkeydown") then
        set_attributes rest (assigned (Onkeydown value) el)
      else if plain_name attr then
        set_attributes rest (assigned (SetAttribute attr value) el)
      else if bad_name attr then Some (el, Throw InvalidCharacterError)
      else None
  end.

Definition appendChild (child : nat) (el : Element) : Element :=
  {| tag := tag el; assignments := assignments el;
     childNodes := childNodes el ++ [ChildElement child] |}.

(** [createElement(parent, tag, attributes)], with [attributes] in the order
    of [Object.entries].  The element is created, which throws for a tag
    that is no name, and filled; when that has returned it is appended to
    its parent.  An exception of [setAttribute] leaves the new element
    detached, and so does a parent that is [null], for which [appendChild]
    is a [TypeError].  A parent is [null] or a node of the document. *)
Definition createElement (parent : option nat) (tag : jsstring)
    (attributes : list (jsstring * Value)) (doc : list Element)
    : option (list Element * Completion nat) :=
  if plain_name tag then
    match set_attributes attributes
            {| tag := tag; assignments := []; childNodes := [] |} with
    | Some (el, Normal _) =>
        match parent with
        | Some parent =>
            match doc !! parent with
            | Some node =>
                Some (<[parent := appendChild (length doc) node]> (doc ++ [el]),
                      Normal (length doc))
            | None => None
            end
        | None => Some (doc ++ [el], Throw TypeError)
        end
    | Some (el, Throw e) => Some (doc ++ [el], Throw e)
    | None => None
    end
  else if bad_name tag then Some (doc, Throw InvalidCharacterError)
  else None.

(** [createSoundboardButton(name, soundBlob)] with [boardEl] the node found
    at line 3, or [null]. *)
Definition createSoundboardButton (boardEl : option nat) (name : jsstring)
    (soundBlob : Blob) (doc : list Element) : option (list Element * Completion unit) :=
  match createElement boardEl (str "div")
          [(str "class", VString (str "card")); (str "onclick", VPlay soundBlob)] doc with
  | Some (doc, Normal card) =>
      match createElement (Some card) (str "span") [(str "textContent", VString name)] doc with
      | Some (doc, Normal _) => Some (doc, Normal tt)
      | Some (doc, Throw e) => Some (doc, Throw e)
      | None => None
      end
  | Some (doc, Throw e) => Some (doc, Throw e)
  | None => None
  end.

(** The five names [createElement] treats as properties. *)
Definition special (attr : jsstring) : bool :=
  bool_decide (attr = str "innerText") || bool_decide (attr = str "innerHTML")
  || bool_decide (attr = str "textContent") || bool_decide (attr = str "onclick")
  || bool_decide (attr = str "onkeydown").

(** An entry whose effect the model gives and which does not throw: a
    string for [textContent], a handler, or an attribute with a plain
    name. *)
Definition simple (entry : jsstring * Value) : bool :=
  let '(attr, value) := entry in
  if decide (attr = str "innerText") then false
  else if decide (attr = str "innerHTML") then false
  else if decide (attr = str "textContent") then
    match value with VString _ => true | VPlay _ => false end
  else if decide (attr = str "onclick") then true
  else if decide (attr = str "onkeydown") then true
  else plain_name attr.

(** The string given last for [textContent] among the entries, if any. *)
Definition text_given (attributes : list (jsstring * Value)) : option jsstring :=
  last (omap (fun entry : jsstring * Value =>
                let '(attr, value) := entry in
                if decide (attr = str "textContent")
                then match value with VString s => Some s | VPlay _ => None end
                else None)
          attributes).

(** The element children of a node, in order. *)
Definition elements_of (children : list Child) : list nat :=
  omap (fun child => match child with
                     | ChildElement el => Some el
                     | ChildText _ => None
                     end) children.

(** Reading a card off the document: the blob its click handler plays, and
    the text of its first child.  The click handler is what was assigned to
    [onclick] last, when that is a function; the text of an element whose
    children are text nodes is their data, one after the other. *)
Definition handler_of (el : Element) : option Blob :=
  match last (omap (fun a => match a with Onclick value => Some value | _ => None end)
                (assignments el)) with
  | Some (VPlay soundBlob) => Some soundBlob
  | _ => None
  end.

Definition text_of (el : Element) : option jsstring :=
  match mapM (fun child => match child with
                            | ChildText data => Some data
                            | ChildElement _ => None
                            end) (childNodes el) with
  | Some texts => Some (concat texts)
  | None => None
  end.

Definition card_of (doc : list Element) (card : nat) : option Card :=
  match doc !! card with
  | Some el =>
      match handler_of el, head (childNodes el) with
      | Some blob, Some (ChildElement span) =>
          match doc !! span with
          | Some sp =>
              match text_of sp with
              | Some text => Some {| card_text := text; card_sound := blob |}
              | None => None
              end
          | None => None
          end
      | _, _ => None
      end
  | None => None
  end.

Definition cards (doc : list Element) (boardEl : nat) : option (list Card) :=
  match doc !! boardEl with
  | Some el => mapM (card_of doc) (elements_of (childNodes el))
  | None => None
  end.

(** The children of the board and their first children are nodes of the
    document other than the board. *)
Definition board_tree (doc : list Element) (boardEl : nat) : Prop :=
  forall el, doc !! boardEl = Some el ->
    Forall (fun card =>
              card <> boardEl
              /\ forall elc span, doc !! card = Some elc ->
                   head (childNodes elc) = Some (ChildElement span) -> span <> boardEl)
           (elements_of (childNodes el)).

End DOM.

(** * Properties *)

Module Base64Facts.
Import Base64.
Local Open Scope N_scope.

Lemma euclid (x k : N) : k <> 0 -> x = k * (x / k) + x mod k /\ x mod k < k.
Proof. intros H. split; [apply N.div_mod; exact H | apply N.mod_lt; exact H]. Qed.

(** Quotients and remainders by constants become variables tied by the
    division equation, which leaves linear goals. *)
Ltac euclid_on x k :=
  let q := fresh "q" in
  let r := fresh "r" in
  destruct (euclid x k ltac:(lia)) as [? ?];
  set (q := x / k) in *; set (r := x mod k) in *; clearbody q r.

Ltac euclidean :=
  repeat match goal with
    | |- context [?x / ?k] => euclid_on x k
    | |- context [?x mod ?k] => euclid_on x k
    | _ : context [?x / ?k] |- _ => euclid_on x k
    | _ : context [?x mod ?k] |- _ => euclid_on x k
    end.

Ltac split_tests :=
  repeat match goal with
    | |- context [(?a <? ?b)%N] => destruct (N.ltb_spec a b)
    | |- context [(?a <=? ?b)%N] => destruct (N.leb_spec a b)
    | |- context [(?a =? ?b)%N] => destruct (N.eqb_spec a b)
    end; cbn [andb orb negb].

Lemma list_ind3 {A} (P : list A -> Prop) :
  P [] -> (forall a, P [a]) -> (forall a b, P [a; b]) ->
  (forall a b c l, P l -> P (a :: b :: c :: l)) ->
  forall l, P l.
Proof.
  intros H0 H1 H2 H3.
  fix IH 1. intros [|a [|b [|c l]]]; [apply H0 | apply H1 | apply H2 | apply H3, IH].
Qed.

Lemma index_alphabet i : i < 64 -> index (alphabet i) = Some i.
Proof.
  intros Hi. unfold index, alphabet.
  split_tests; try lia; f_equal; lia.
Qed.

Lemma alphabet_not_pad i : i < 64 -> (alphabet i =? pad) = false.
Proof.
  intros Hi. apply N.eqb_neq. unfold alphabet, pad. split_tests; lia.
Qed.

Lemma alphabet_not_whitespace i : i < 64 -> is_ascii_whitespace (alphabet i) = false.
Proof.
  intros Hi.
  assert (32 < alphabet i) as H by (unfold alphabet; split_tests; lia).
  unfold is_ascii_whitespace. split_tests; try lia; reflexivity.
Qed.

Lemma byte_bound (b : byte) : Byte.to_N b < 256.
Proof. pose proof (Byte.to_N_bounded b). lia. Qed.

Lemma to_uint8_to_N (b : byte) : to_uint8 (Byte.to_N b) = b.
Proof.
  unfold to_uint8. rewrite N.mod_small by apply byte_bound.
  now rewrite Byte.of_to_N.
Qed.

Lemma encode_no_whitespace bs : remove_whitespace (encode bs) = encode bs.
Proof.
  unfold remove_whitespace.
  induction bs as [|a|a b|a b c l IH] using list_ind3; cbn [encode].
  - reflexivity.
  - pose proof (byte_bound a).
    rewrite !filter_cons, !decide_True; [reflexivity|..];
      try reflexivity; apply alphabet_not_whitespace; euclidean; lia.
  - pose proof (byte_bound a). pose proof (byte_bound b).
    rewrite !filter_cons, !decide_True; [reflexivity|..];
      try reflexivity; apply alphabet_not_whitespace; euclidean; lia.
  - pose proof (byte_bound a). pose proof (byte_bound b). pose proof (byte_bound c).
    rewrite !filter_cons, !decide_True, IH; [reflexivity|..];
      apply alphabet_not_whitespace; euclidean; lia.
Qed.

Lemma encode_length bs : exists k, length (encode bs) = (4 * k)%nat.
Proof.
  induction bs as [|a|a b|a b c l [k IH]] using list_ind3; cbn [encode length].
  - now exists 0%nat.
  - now exists 1%nat.
  - now exists 1%nat.
  - exists (S k). rewrite IH. lia.
Qed.

Lemma remove_padding_app pre e :
  (2 <= length e)%nat -> remove_padding (pre ++ e) = pre ++ remove_padding e.
Proof.
  intros Hlen. unfold remove_padding. rewrite rev_app_distr.
  destruct (rev e) as [|c1 [|c2 r]] eqn:He.
  - apply (f_equal (@length N)) in He. rewrite length_rev in He. cbn in He. lia.
  - apply (f_equal (@length N)) in He. rewrite length_rev in He. cbn in He. lia.
  - cbn [app]. destruct (c1 =? pad); [|reflexivity].
    destruct (c2 =? pad).
    + now rewrite rev_app_distr, rev_involutive.
    + change (c2 :: r ++ rev pre) with ((c2 :: r) ++ rev pre).
      now rewrite rev_app_distr, rev_involutive.
Qed.

Lemma encode_nil_or_long bs : bs = [] \/ (4 <= length (encode bs))%nat.
Proof.
  destruct bs as [|a [|b [|c l]]]; [now left|right; cbn; lia..].
Qed.

Lemma encode_remove_padding bs : remove_padding (encode bs) = encode_unpadded bs.
Proof.
  induction bs as [|a|a b|a b c l IH] using list_ind3.
  - reflexivity.
  - reflexivity.
  - pose proof (byte_bound b).
    unfold remove_padding. cbn.
    rewrite alphabet_not_pad by (euclidean; lia). reflexivity.
  - cbn [encode encode_unpadded].
    destruct (encode_nil_or_long l) as [-> | Hl].
    + pose proof (byte_bound c).
      unfold remove_padding. cbn.
      rewrite alphabet_not_pad by (euclidean; lia). reflexivity.
    + rewrite <- IH.
      apply (remove_padding_app [_; _; _; _]). lia.
Qed.

Lemma encode_unpadded_length bs :
  exists k, length (encode_unpadded bs) = (4 * k)%nat
         \/ length (encode_unpadded bs) = (4 * k + 2)%nat
         \/ length (encode_unpadded bs) = (4 * k + 3)%nat.
Proof.
  induction bs as [|a|a b|a b c l [k IH]] using list_ind3; cbn [encode_unpadded length].
  - exists 0%nat. auto.
  - exists 0%nat. auto.
  - exists 0%nat. auto.
  - exists (S k). lia.
Qed.

Lemma mod4_0 k : ((4 * k) mod 4 =? 0)%nat = true.
Proof. apply Nat.eqb_eq. rewrite Nat.mul_comm. apply Nat.Div0.mod_mul. Qed.

Lemma mod4_not_1 n k :
  n = (4 * k)%nat \/ n = (4 * k + 2)%nat \/ n = (4 * k + 3)%nat ->
  (n mod 4 =? 1)%nat = false.
Proof.
  intros H. apply Nat.eqb_neq. intros Hm.
  pose proof (Nat.div_mod_eq n 4). lia.
Qed.

(** The sextets of the encoding, read back as bytes, are the input. *)
Lemma sextets_encode_unpadded bs :
  exists l, sextets (encode_unpadded bs) = Some l
            /\ bytes_of_sextets l = map Byte.to_N bs.
Proof.
  induction bs as [|a|a b|a b c bs [l [Hl Hb]]] using list_ind3;
    cbn [encode_unpadded sextets map].
  - exists []. split; reflexivity.
  - pose proof (byte_bound a).
    rewrite !index_alphabet by (euclidean; lia).
    eexists. split; [reflexivity|]. cbn [bytes_of_sextets].
    f_equal. euclidean; lia.
  - pose proof (byte_bound a). pose proof (byte_bound b).
    rewrite !index_alphabet by (euclidean; lia).
    eexists. split; [reflexivity|]. cbn [bytes_of_sextets].
    assert (((to_N a / 4 * 64 + (to_N a mod 4 * 16 + to_N b / 16)) * 64
             + to_N b mod 16 * 4) / 4 = to_N a * 256 + to_N b) as ->
      by (euclidean; lia).
    f_equal; [|f_equal]; euclidean; lia.
  - pose proof (byte_bound a). pose proof (byte_bound b). pose proof (byte_bound c).
    rewrite !index_alphabet by (euclidean; lia).
    rewrite Hl. eexists. split; [reflexivity|]. cbn [bytes_of_sextets].
    rewrite Hb.
    assert (((to_N a / 4 * 64 + (to_N a mod 4 * 16 + to_N b / 16)) * 64
             + (to_N b mod 16 * 4 + to_N c / 64)) * 64 + to_N c mod 64
            = to_N a * 65536 + to_N b * 256 + to_N c) as ->
      by (euclidean; lia).
    f_equal; [|f_equal; [|f_equal]]; euclidean; lia.
Qed.

Theorem forgiving_decode_encode bs :
  forgiving_decode (encode bs) = Some (map Byte.to_N bs).
Proof.
  unfold forgiving_decode. rewrite encode_no_whitespace.
  destruct (encode_length bs) as [k ->]. rewrite mod4_0.
  rewrite encode_remove_padding.
  destruct (encode_unpadded_length bs) as [k' Hk'].
  rewrite (mod4_not_1 _ k' Hk').
  destruct (sextets_encode_unpadded bs) as [l [-> ->]]. reflexivity.
Qed.

Corollary atob_encode bs : atob (encode bs) = Normal (map Byte.to_N bs).
Proof. unfold atob. now rewrite forgiving_decode_encode. Qed.
End Base64Facts.

Module BlobFacts.

Lemma Uint8Array_Some (l : list N) : Uint8Array (map Some l) = map to_uint8 l.
Proof. unfold Uint8Array. rewrite map_map. reflexivity. Qed.

Lemma array_set_next {A} (pre : list (option A)) (n : nat) (v : A) :
  array_set (pre ++ replicate (S n) None) (length pre) v
  = (pre ++ [Some v]) ++ replicate n None.
Proof.
  unfold array_set. rewrite length_app. cbn [replicate length].
  destruct (Nat.ltb_spec (length pre) (length pre + S (length (replicate n (@None A)))));
    [|lia].
  rewrite insert_app_r_alt by lia. rewrite Nat.sub_diag. cbn.
  now rewrite <- app_assoc.
Qed.

(** The inner loop copies the characters from [offset] on, in order. *)
Lemma fill_bytes_copies (chars : jsstring) n : forall offset pre,
  n <= length chars - offset ->
  fill_bytes n chars offset (length pre) (pre ++ replicate n None)
  = Normal (pre ++ map Some (take n (drop offset chars))).
Proof.
  induction n as [|n IH]; intros offset pre Hlen; cbn [fill_bytes].
  - now rewrite take_0.
  - destruct (lookup_lt_is_Some_2 chars offset ltac:(lia)) as [c Hc].
    rewrite Hc, array_set_next.
    replace (S (length pre)) with (length (pre ++ [Some c]))
      by (rewrite length_app; cbn; lia).
    rewrite IH by lia.
    rewrite (drop_S _ _ _ Hc). cbn [take map].
    now rewrite <- app_assoc.
Qed.

Lemma fill_slices_copies (size : nat) (chars : jsstring) n : forall sliceIndex pre,
  length pre = sliceIndex ->
  fill_slices n size chars sliceIndex (pre ++ replicate n None)
  = Normal (pre ++ map (fun k => Some (map to_uint8 (slice_of size chars k)))
                       (seq sliceIndex n)).
Proof.
  induction n as [|n IH]; intros sliceIndex pre Hpre; cbn [fill_slices seq map].
  - reflexivity.
  - set (begin := sliceIndex * size).
    set (end_ := Nat.min (begin + size) (length chars)).
    pose proof (fill_bytes_copies chars (end_ - begin) begin [] ltac:(subst end_; lia)) as Hin.
    cbn [app length] in Hin. unfold new_Array. rewrite Hin. cbn [mbind Completion_bind].
    rewrite Uint8Array_Some. rewrite <- Hpre at 2. rewrite array_set_next.
    rewrite IH by (rewrite length_app; cbn; lia).
    now rewrite <- app_assoc.
Qed.

Lemma slice_of_take (size : nat) (chars : jsstring) k :
  slice_of size chars k = take size (drop (k * size) chars).
Proof.
  unfold slice_of.
  destruct (Nat.le_gt_cases (k * size + size) (length chars)) as [H|H].
  - rewrite Nat.min_l by lia. f_equal. lia.
  - rewrite Nat.min_r by lia.
    rewrite !take_ge; [reflexivity|rewrite length_drop; lia..].
Qed.

Lemma slices_concat (size : nat) (chars : jsstring) n : forall k,
  concat (map (slice_of size chars) (seq k n)) = take (n * size) (drop (k * size) chars).
Proof.
  induction n as [|n IH]; intros k; cbn [seq map concat].
  - now rewrite take_0.
  - rewrite IH, slice_of_take.
    replace (S k * size) with (k * size + size) by lia.
    rewrite <- drop_drop.
    replace (S n * size) with (size + n * size) by lia.
    now rewrite take_take_drop.
Qed.
End BlobFacts.

Module CodecFacts.
Import Base64Facts BlobFacts.

Lemma ceil_div_covers (a b : nat) : b <> 0 -> a <= ceil_div a b * b.
Proof.
  intros Hb. unfold ceil_div.
  pose proof (Nat.div_mod_eq a b) as Hdm.
  pose proof (Nat.mod_upper_bound a b Hb) as Hlt.
  destruct (Nat.eqb_spec (a mod b) 0); nia.
Qed.

(** What [base64toBlob] builds from the [atob] output. *)
Lemma base64toBlob_bytes (base64Data byteCharacters : jsstring) :
  atob base64Data = Normal byteCharacters ->
  base64toBlob base64Data
  = Normal {| blob_type := []; blob_bytes := map to_uint8 byteCharacters |}.
Proof.
  intros Hatob. unfold base64toBlob. rewrite Hatob. cbn [mbind Completion_bind].
  pose proof (fill_slices_copies sliceSize byteCharacters
                (ceil_div (length byteCharacters) sliceSize) 0 [] eq_refl) as Hs.
  cbn [app] in Hs. unfold new_Array. rewrite Hs. cbn [mbind Completion_bind].
  unfold Blob_of_arrays. do 2 f_equal.
  rewrite map_map.
  rewrite <- (map_map (slice_of sliceSize byteCharacters) (map to_uint8)).
  rewrite <- concat_map, slices_concat. cbn [Nat.mul drop].
  rewrite take_ge; [reflexivity|].
  apply ceil_div_covers. discriminate.
Qed.

Lemma slice_drop (s : jsstring) (start : Z) :
  (0 <= start <= Z.of_nat (length s))%Z -> slice s start = drop (Z.to_nat start) s.
Proof.
  intros H. unfold slice.
  destruct (Z.ltb_spec start 0); [lia|].
  now rewrite Z.min_l by lia.
Qed.

Lemma strip_data_url_octets (text : jsstring) :
  strip_data_url (str "data:" ++ str "application/octet-stream" ++ str ";base64," ++ text)
  = text.
Proof.
  unfold strip_data_url.
  change (indexOf _ _) with 30%Z.
  rewrite slice_drop; [reflexivity|].
  rewrite !length_app. cbn. lia.
Qed.

(** The text kept by the script is the base64 encoding of the bytes. *)
Lemma encode_base64 (bare_empty : bool) (bytes : list byte) :
  encode bare_empty bytes = Base64.encode bytes.
Proof.
  unfold encode, readAsDataURL. cbn [blob_bytes blob_type].
  destruct bytes as [|b bytes].
  - destruct bare_empty; reflexivity.
  - apply strip_data_url_octets.
Qed.
End CodecFacts.

(** C10.  For every valid base64 text, the sliced decode of [base64toBlob]
    returns a blob whose bytes are those of a plain character-by-character
    decode of the [atob] output, in the same order, and as many as the
    [atob] output has characters. *)
Theorem base64toBlob_refines_plain_decode (base64Data byteCharacters : jsstring) :
  atob base64Data = Normal byteCharacters ->
  exists blob,
    base64toBlob base64Data = Normal blob
    /\ Normal (blob_bytes blob) = plain_decode base64Data
    /\ length (blob_bytes blob) = length byteCharacters.
Proof.
  intros Hatob. eexists. split; [|split].
  - apply CodecFacts.base64toBlob_bytes, Hatob.
  - unfold plain_decode. rewrite Hatob. reflexivity.
  - cbn [blob_bytes]. apply length_map.
Qed.

Lemma base64toBlob_refines_plain_decode_witness :
  atob (str "UklGRg==") = Normal [82; 73; 70; 70]%N
  /\ exists blob,
       base64toBlob (str "UklGRg==") = Normal blob
       /\ Normal (blob_bytes blob) = plain_decode (str "UklGRg==")
       /\ length (blob_bytes blob) = length [82; 73; 70; 70]%N.
Proof.
  split; [reflexivity|].
  apply (base64toBlob_refines_plain_decode (str "UklGRg==") [82; 73; 70; 70]%N).
  reflexivity.
Defined.

(** C1.  Decoding the text kept for a byte sequence gives the byte sequence
    back, for every byte sequence, the empty one included, and whatever the
    engine answers for an empty blob. *)
Theorem decode_encode (bare_empty : bool) (b : list byte) :
  decode (encode bare_empty b) = Normal b.
Proof.
  unfold decode. rewrite CodecFacts.encode_base64.
  rewrite (CodecFacts.base64toBlob_bytes _ _ (Base64Facts.atob_encode b)).
  cbn [mbind Completion_bind blob_bytes].
  rewrite map_map. f_equal.
  rewrite <- (map_id b) at 2. apply map_ext. intros x. apply Base64Facts.to_uint8_to_N.
Qed.

Module JSONFacts.
Import JSON Base64Facts.
Local Open Scope N_scope.

Lemma hex_value_digit n : n < 16 -> hex_value (hex_digit n) = Some n.
Proof.
  intros Hn. unfold hex_value, hex_digit, is_digit.
  split_tests; try lia; f_equal; lia.
Qed.

Lemma hex4_value_escape c rest :
  c < 65536 ->
  exists h1 h2 h3 h4,
    unicode_escape c ++ rest = 92 :: 117 :: h1 :: h2 :: h3 :: h4 :: rest
    /\ hex4_value h1 h2 h3 h4 = Some c.
Proof.
  intros Hc. do 4 eexists. split; [reflexivity|].
  unfold hex4_value. rewrite !hex_value_digit by (euclidean; lia).
  f_equal. euclidean; lia.
Qed.

(** A character that is copied as it stands is read back as itself. *)
Lemma string_chars_copy c s :
  (c =? 34) = false -> (c =? 92) = false -> (c <? 32) = false ->
  string_chars (c :: s)
  = match string_chars s with
    | Some (cs, rest) => Some (c :: cs, rest)
    | None => None
    end.
Proof. intros H1 H2 H3. cbn [string_chars]. now rewrite H1, H2, H3. Qed.

Lemma string_chars_escape c rest :
  c < 65536 ->
  string_chars (unicode_escape c ++ rest)
  = match string_chars rest with
    | Some (cs, rest') => Some (c :: cs, rest')
    | None => None
    end.
Proof.
  intros Hc. destruct (hex4_value_escape c rest Hc) as (h1 & h2 & h3 & h4 & -> & Hh).
  cbn [string_chars]. change (92 =? 34) with false. change (92 =? 92) with true.
  change (117 =? 117) with true. cbn iota. now rewrite Hh.
Qed.

Lemma surrogate_copied c :
  55296 <= c -> (c =? 34) = false /\ (c =? 92) = false /\ (c <? 32) = false.
Proof.
  intros H. repeat split; [apply N.eqb_neq; lia | apply N.eqb_neq; lia | apply N.ltb_ge; lia].
Qed.

Lemma string_chars_quote_chars n : forall s rest,
  (length s <= n)%nat -> wf_string s ->
  string_chars (quote_chars s ++ 34 :: rest) = Some (s, rest).
Proof.
  induction n as [|n IH]; intros s rest Hlen Hwf.
  - destruct s; [reflexivity|cbn in Hlen; lia].
  - destruct s as [|c r]; [reflexivity|].
    apply Forall_cons in Hwf as [Hc Hr]. unfold code_unit in Hc.
    cbn [length] in Hlen.
    assert (IHr : forall rest, string_chars (quote_chars r ++ 34 :: rest) = Some (r, rest))
      by (intros; apply IH; [lia|assumption]).
    cbn [quote_chars].
    destruct (c =? 8) eqn:E8.
    { apply N.eqb_eq in E8 as ->. cbn. now rewrite IHr. }
    destruct (c =? 9) eqn:E9.
    { apply N.eqb_eq in E9 as ->. cbn. now rewrite IHr. }
    destruct (c =? 10) eqn:E10.
    { apply N.eqb_eq in E10 as ->. cbn. now rewrite IHr. }
    destruct (c =? 12) eqn:E12.
    { apply N.eqb_eq in E12 as ->. cbn. now rewrite IHr. }
    destruct (c =? 13) eqn:E13.
    { apply N.eqb_eq in E13 as ->. cbn. now rewrite IHr. }
    destruct (c =? 34) eqn:E34.
    { apply N.eqb_eq in E34 as ->. cbn. now rewrite IHr. }
    destruct (c =? 92) eqn:E92.
    { apply N.eqb_eq in E92 as ->. cbn. now rewrite IHr. }
    destruct (c <? 32) eqn:E32.
    { rewrite <- app_assoc, string_chars_escape by assumption. now rewrite IHr. }
    destruct (is_leading_surrogate c) eqn:Elead.
    { destruct r as [|d r'].
      - rewrite string_chars_escape by assumption. reflexivity.
      - destruct (is_trailing_surrogate d) eqn:Etrail.
        + apply Forall_cons in Hr as [Hd Hr'].
          unfold is_trailing_surrogate in Etrail.
          apply andb_true_iff in Etrail as [Hd1 _]. apply N.leb_le in Hd1.
          destruct (surrogate_copied d) as (D1 & D2 & D3); [lia|].
          cbn [app]. rewrite string_chars_copy by assumption.
          rewrite string_chars_copy by assumption.
          rewrite IH; [reflexivity|cbn in Hlen; lia|assumption].
        + rewrite <- app_assoc, string_chars_escape by assumption. now rewrite IHr. }
    destruct (is_trailing_surrogate c) eqn:Etrail.
    { rewrite <- app_assoc, string_chars_escape by assumption. now rewrite IHr. }
    cbn [app]. rewrite string_chars_copy by assumption. now rewrite IHr.
Qed.

Lemma string_chars_quote s rest :
  wf_string s -> string_chars (quote_chars s ++ [34] ++ rest) = Some (s, rest).
Proof. intros H. now apply (string_chars_quote_chars (length s)). Qed.

Lemma string_chars_quoted s rest :
  wf_string s -> string_chars (quote_chars s ++ 34 :: rest) = Some (s, rest).
Proof. intros H. now apply (string_chars_quote_chars (length s)). Qed.

Lemma wf_string_str (s : String.string) : wf_string (str s).
Proof.
  unfold str, wf_string. apply Forall_forall. intros c Hc.
  apply list_elem_of_In, in_map_iff in Hc as [a [<- _]].
  unfold code_unit. pose proof (N_ascii_bounded a). lia.
Qed.

Ltac right_nested :=
  repeat (rewrite <- app_assoc || rewrite <- app_comm_cons); cbn [app].

Ltac literal_tests :=
  cbn [skip_ws is_whitespace N.eqb Pos.eqb orb andb].

Lemma parse_value_string fuel s rest :
  wf_string s ->
  parse_value (S fuel) (34 :: quote_chars s ++ 34 :: rest) = Some (JString s, rest).
Proof.
  intros Hs. cbn [parse_value]. literal_tests.
  now rewrite string_chars_quoted.
Qed.

Lemma parse_value_object fuel t :
  parse_value (S fuel) (123 :: 34 :: t)
  = match parse_members fuel (34 :: t) with
    | Some (ms, rest) => Some (JObject ms, rest)
    | None => None
    end.
Proof. reflexivity. Qed.

Lemma parse_members_string fuel key s c rest :
  wf_string key -> wf_string s -> is_whitespace c = false ->
  parse_members (S (S fuel))
    (34 :: quote_chars key ++ 34 :: 58 :: 34 :: quote_chars s ++ 34 :: c :: rest)
  = if c =? 44 then
      match parse_members (S fuel) rest with
      | Some (ms, rest') => Some ((key, JString s) :: ms, rest')
      | None => None
      end
    else if c =? 125 then Some ([(key, JString s)], rest)
    else None.
Proof.
  intros Hkey Hs Hc. cbn [parse_members]. literal_tests.
  rewrite string_chars_quoted by assumption. literal_tests.
  rewrite parse_value_string by assumption.
  cbn [skip_ws]. now rewrite Hc.
Qed.

Lemma stringify_sound_text sound rest :
  stringify_sound sound ++ rest
  = 123 :: 34 :: quote_chars (str "name") ++ 34 :: 58
      :: 34 :: quote_chars (name sound) ++ 34 :: 44
      :: 34 :: quote_chars (str "data") ++ 34 :: 58
      :: 34 :: quote_chars (data sound) ++ 34 :: 125 :: rest.
Proof. unfold stringify_sound, quote. right_nested. reflexivity. Qed.

Lemma parse_sound fuel sound rest :
  wf_sound sound ->
  parse_value (S (S (S (S fuel)))) (stringify_sound sound ++ rest)
  = Some (sound_value sound, rest).
Proof.
  intros [Hn Hd]. rewrite stringify_sound_text, parse_value_object.
  rewrite parse_members_string by (auto using wf_string_str).
  change (44 =? 44) with true. cbn iota.
  rewrite parse_members_string by (auto using wf_string_str).
  reflexivity.
Qed.

Lemma stringify_sound_head sound :
  exists t, stringify_sound sound = 123 :: 34 :: t.
Proof. eexists. rewrite <- (app_nil_r (stringify_sound sound)). apply stringify_sound_text. Qed.

Lemma parse_elements_sound fuel sound c rest :
  wf_sound sound -> is_whitespace c = false ->
  parse_elements (S (S (S (S (S fuel))))) (stringify_sound sound ++ c :: rest)
  = if c =? 44 then
      match parse_elements (S (S (S (S fuel)))) rest with
      | Some (vs, rest') => Some (sound_value sound :: vs, rest')
      | None => None
      end
    else if c =? 93 then Some ([sound_value sound], rest)
    else None.
Proof.
  intros Hs Hc.
  change (parse_elements (S (S (S (S (S fuel))))) (stringify_sound sound ++ c :: rest))
    with (match parse_value (S (S (S (S fuel)))) (stringify_sound sound ++ c :: rest) with
          | None => None
          | Some (v, r) =>
              match skip_ws r with
              | c :: r' =>
                  if c =? 44 then
                    match parse_elements (S (S (S (S fuel)))) r' with
                    | Some (vs, rest) => Some (v :: vs, rest)
                    | None => None
                    end
                  else if c =? 93 then Some ([v], r')
                  else None
              | [] => None
              end
          end).
  rewrite parse_sound by assumption. cbn [skip_ws]. now rewrite Hc.
Qed.

(** The elements of a non-empty array of sounds, up to the closing bracket. *)
Lemma parse_elements_sounds sound l : forall fuel rest,
  wf_sound sound -> Forall wf_sound l ->
  (length l + 5 <= fuel)%nat ->
  parse_elements fuel (join_comma (map stringify_sound (sound :: l)) ++ 93 :: rest)
  = Some (map sound_value (sound :: l), rest).
Proof.
  revert sound. induction l as [|sound' l IH]; intros sound fuel rest Hs Hl Hfuel.
  - destruct fuel as [|[|[|[|[|fuel]]]]]; cbn in Hfuel; try lia.
    cbn [map join_comma].
    now rewrite parse_elements_sound.
  - destruct fuel as [|[|[|[|[|fuel]]]]]; cbn [length] in Hfuel; try lia.
    apply Forall_cons in Hl as [Hs' Hl].
    change (join_comma (map stringify_sound (sound :: sound' :: l)))
      with (stringify_sound sound ++ [44] ++ join_comma (map stringify_sound (sound' :: l))).
    rewrite <- !app_assoc.
    change ([44] ++ ?t) with (44 :: t).
    rewrite parse_elements_sound by (assumption || reflexivity).
    change (44 =? 44) with true. cbn iota.
    rewrite IH by (assumption || lia). reflexivity.
Qed.

Lemma as_sounds_values l : as_sounds (map sound_value l) = Some l.
Proof.
  induction l as [|[n d] l IH]; [reflexivity|].
  cbn [map as_sounds]. rewrite IH.
  unfold sound_value, as_sound. cbn [name data].
  rewrite decide_True by (split; reflexivity). reflexivity.
Qed.

Lemma join_comma_length l :
  Forall (fun x : jsstring => (1 <= length x)%nat) l -> (length l <= length (join_comma l))%nat.
Proof.
  induction 1 as [|x l Hx Hl IH]; [cbn; lia|].
  destruct l as [|y l]; [cbn; lia|].
  change (join_comma (x :: y :: l)) with (x ++ [44] ++ join_comma (y :: l)).
  rewrite !length_app. cbn [length] in *. lia.
Qed.

(** [JSON.parse] reads back what [JSON.stringify] wrote for the catalogue. *)
Theorem parse_stringify (l : list SoundEntry) :
  Forall wf_sound l ->
  parse (JSON_stringify l) = Normal (JArray (map sound_value l)).
Proof.
  intros Hl. unfold parse, JSON_stringify.
  destruct l as [|sound l].
  - reflexivity.
  - apply Forall_cons in Hl as [Hs Hl].
    set (body := join_comma (map stringify_sound (sound :: l))).
    assert (Hlen : (length (sound :: l) <= length body)%nat).
    { subst body. rewrite <- (length_map stringify_sound). apply join_comma_length.
      apply Forall_forall. intros x Hx.
      apply list_elem_of_In, in_map_iff in Hx as [e [<- _]].
      destruct (stringify_sound_head e) as [t ->]. cbn. lia. }
    assert (Hhead : exists t, body = 123 :: 34 :: t).
    { subst body. cbn [map]. destruct (stringify_sound_head sound) as [t Ht].
      destruct l; cbn [map join_comma]; rewrite Ht; eexists; reflexivity. }
    destruct Hhead as [t Ht].
    remember (2 * length ([91%N] ++ body ++ [93%N]) + 2)%nat as fuel eqn:Hfuel.
    rewrite !length_app in Hfuel. cbn [length] in *.
    destruct fuel as [|fuel]; [lia|].
    cbn [app parse_value]. literal_tests.
    pose proof (parse_elements_sounds sound l fuel [] Hs Hl ltac:(lia)) as Hp.
    fold body in Hp. clearbody body. subst body.
    cbn [app] in *. literal_tests. rewrite Hp. reflexivity.
Qed.
End JSONFacts.

Module FuelFacts.
Import JSON.
Local Open Scope N_scope.

Lemma skip_ws_length s : (length (skip_ws s) <= length s)%nat.
Proof.
  induction s as [|c s IH]; cbn [skip_ws]; [lia|].
  destruct (is_whitespace c); cbn [length]; lia.
Qed.

Lemma string_chars_length n : forall s cs r,
  (length s <= n)%nat -> string_chars s = Some (cs, r) -> (length r < length s)%nat.
Proof.
  induction n as [|n IH]; intros s cs r Hn H.
  - destruct s; [discriminate|cbn in Hn; lia].
  - destruct s as [|c s]; [discriminate|]. cbn [length] in *. cbn [string_chars] in H.
    destruct (c =? 34); [injection H as _ <-; lia|].
    destruct (c =? 92).
    + destruct s as [|e s1]; [discriminate|]. cbn [length] in *.
      destruct (e =? 117).
      * destruct s1 as [|h1 [|h2 [|h3 [|h4 s2]]]]; try discriminate.
        destruct (hex4_value h1 h2 h3 h4); [|discriminate].
        destruct (string_chars s2) as [[cs' r']|] eqn:E; [|discriminate].
        injection H as _ <-. apply IH in E; cbn [length] in *; lia.
      * destruct (escape_value e); [|discriminate].
        destruct (string_chars s1) as [[cs' r']|] eqn:E; [|discriminate].
        injection H as _ <-. apply IH in E; cbn [length] in *; lia.
    + destruct (c <? 32); [discriminate|].
      destruct (string_chars s) as [[cs' r']|] eqn:E; [|discriminate].
      injection H as _ <-. apply IH in E; lia.
Qed.

Lemma digits_length s : (length (snd (digits s)) <= length s)%nat.
Proof.
  induction s as [|c s IH]; cbn [digits]; [cbn; lia|].
  destruct (is_digit c); [|cbn; lia].
  destruct (digits s) as [ds rest]. cbn [snd length] in *. lia.
Qed.

Lemma number_length s lit rest :
  number s = Some (lit, rest) -> (length rest < length s)%nat.
Proof.
  unfold number.
  assert (Hint : forall s0 i s1, number_int s0 = Some (i, s1) -> (length s1 < length s0)%nat).
  { intros s0 i s1. unfold number_int. destruct s0 as [|c s']; [discriminate|].
    destruct (c =? 48); [intros [= _ <-]; cbn; lia|].
    destruct (is_digit c); [|discriminate].
    pose proof (digits_length s') as Hd. destruct (digits s') as [ds r].
    intros [= _ <-]. cbn [snd length] in *. lia. }
  assert (Hfrac : forall s1 f s2, number_frac s1 = Some (f, s2) -> (length s2 <= length s1)%nat).
  { intros s1 f s2. unfold number_frac. destruct s1 as [|c s']; [intros [= _ <-]; lia|].
    destruct (c =? 46); [|intros [= _ <-]; lia].
    pose proof (digits_length s') as Hd. destruct (digits s') as [[|d ds] r]; [discriminate|].
    intros [= _ <-]. cbn [snd length] in *. lia. }
  assert (Hexp : forall s2 e s3, number_exp s2 = Some (e, s3) -> (length s3 <= length s2)%nat).
  { intros s2 e s3. unfold number_exp. destruct s2 as [|c s']; [intros [= _ <-]; lia|].
    destruct ((c =? 101) || (c =? 69)); [|intros [= _ <-]; lia].
    assert (Hs : exists sign s1,
      (match s' with
       | d :: s1 => if (d =? 43) || (d =? 45) then ([d], s1) else ([], s')
       | [] => ([], s')
       end) = (sign, s1) /\ (length s1 <= length s')%nat).
    { destruct s' as [|d s1]; [do 2 eexists; split; [reflexivity|lia]|].
      destruct ((d =? 43) || (d =? 45)); do 2 eexists; (split; [reflexivity|cbn; lia]). }
    destruct Hs as (sign & s1 & -> & Hs1).
    pose proof (digits_length s1) as Hd. destruct (digits s1) as [[|d ds] r]; [discriminate|].
    intros [= _ <-]. cbn [snd length] in *. lia. }
  assert (Hsign : exists sign s0,
    (match s with
     | c :: s' => if c =? 45 then ([c], s') else ([], s)
     | [] => ([], s)
     end) = (sign, s0) /\ (length s0 <= length s)%nat).
  { destruct s as [|c s']; [do 2 eexists; split; [reflexivity|lia]|].
    destruct (c =? 45); do 2 eexists; (split; [reflexivity|cbn; lia]). }
  destruct Hsign as (sign & s0 & -> & Hs0).
  destruct (number_int s0) as [[i s1]|] eqn:Ei; [|discriminate].
  destruct (number_frac s1) as [[f s2]|] eqn:Ef; [|discriminate].
  destruct (number_exp s2) as [[e s3]|] eqn:Ee; [|discriminate].
  intros [= _ <-]. apply Hint in Ei. apply Hfrac in Ef. apply Hexp in Ee. lia.
Qed.

Lemma starts_with_length k s : starts_with k s = true -> (length k <= length s)%nat.
Proof.
  revert s. induction k as [|a k IH]; intros [|b s] H; cbn in *; try lia; try discriminate.
  apply andb_true_iff in H as [_ H]. apply IH in H. lia.
Qed.

Lemma keyword_length k s rest :
  (1 <= length k)%nat -> keyword k s = Some rest -> (length rest < length s)%nat.
Proof.
  intros Hk. unfold keyword. destruct (starts_with k s) eqn:E; [|discriminate].
  intros [= <-]. apply starts_with_length in E. rewrite length_drop. lia.
Qed.

Ltac skip_ws_case x c r :=
  generalize (skip_ws_length x);
  destruct (skip_ws x) as [|c r]; [easy|]; cbn [length]; intros ?.

(** Fuel does not decide what a parse gives: a parse that succeeds consumes
    at least one character, and succeeds alike with any fuel above twice the
    number of characters consumed. *)
Lemma parse_fuel f :
  (forall s v r, parse_value f s = Some (v, r) ->
     (length r < length s)%nat
     /\ forall g, (2 * (length s - length r) <= g + 1)%nat ->
                  parse_value g s = Some (v, r))
  /\ (forall s vs r, parse_elements f s = Some (vs, r) ->
        (length r < length s)%nat
        /\ forall g, (2 * (length s - length r) <= g)%nat ->
                     parse_elements g s = Some (vs, r))
  /\ (forall s ms r, parse_members f s = Some (ms, r) ->
        (length r < length s)%nat
        /\ forall g, (2 * (length s - length r) <= g)%nat ->
                     parse_members g s = Some (ms, r)).
Proof.
  induction f as [|f (IHV & IHE & IHM)]; [repeat split; discriminate|].
  split; [|split].
  - intros s v r H.
    enough ((length r < length s)%nat
            /\ forall g', (2 * (length s - length r) <= S g' + 1)%nat ->
                          parse_value (S g') s = Some (v, r)) as [L A].
    { split; [exact L|]. intros [|g'] Hg; [lia|]. now apply A. }
    revert H. cbn [parse_value]. skip_ws_case s c r0.
    destruct (c =? 123).
    { skip_ws_case r0 c' r'. destruct (c' =? 125).
      - intros [= <- <-]. split; [lia|reflexivity].
      - destruct (parse_members f (c' :: r')) as [[ms rest]|] eqn:Em; [|discriminate].
        intros [= <- <-]. apply IHM in Em as [Lm Am]. cbn [length] in Lm.
        split; [lia|]. intros g' Hg.
        rewrite Am by (cbn [length]; lia). reflexivity. }
    destruct (c =? 91).
    { skip_ws_case r0 c' r'. destruct (c' =? 93).
      - intros [= <- <-]. split; [lia|reflexivity].
      - destruct (parse_elements f (c' :: r')) as [[vs rest]|] eqn:Ee; [|discriminate].
        intros [= <- <-]. apply IHE in Ee as [Le Ae]. cbn [length] in Le.
        split; [lia|]. intros g' Hg.
        rewrite Ae by (cbn [length]; lia). reflexivity. }
    destruct (c =? 34).
    { generalize (string_chars_length (length r0) r0).
      destruct (string_chars r0) as [[cs rest]|]; [|easy].
      intros Ls [= <- <-]. specialize (Ls _ _ (le_n _) eq_refl).
      split; [lia|reflexivity]. }
    destruct (c =? 110).
    { generalize (keyword_length (str "null") (c :: r0)).
      destruct (keyword (str "null") (c :: r0)) as [rest|]; [|easy].
      intros Lk [= <- <-]. specialize (Lk _ ltac:(cbn; lia) eq_refl).
      cbn [length] in Lk. split; [lia|reflexivity]. }
    destruct (c =? 116).
    { generalize (keyword_length (str "true") (c :: r0)).
      destruct (keyword (str "true") (c :: r0)) as [rest|]; [|easy].
      intros Lk [= <- <-]. specialize (Lk _ ltac:(cbn; lia) eq_refl).
      cbn [length] in Lk. split; [lia|reflexivity]. }
    destruct (c =? 102).
    { generalize (keyword_length (str "false") (c :: r0)).
      destruct (keyword (str "false") (c :: r0)) as [rest|]; [|easy].
      intros Lk [= <- <-]. specialize (Lk _ ltac:(cbn; lia) eq_refl).
      cbn [length] in Lk. split; [lia|reflexivity]. }
    generalize (number_length (c :: r0)).
    destruct (number (c :: r0)) as [[lit rest]|]; [|easy].
    intros Ln [= <- <-]. specialize (Ln _ _ eq_refl).
    cbn [length] in Ln. split; [lia|reflexivity].
  - intros s vs r H. cbn [parse_elements] in H.
    destruct (parse_value f s) as [[v r1]|] eqn:Ev; [|discriminate].
    apply IHV in Ev as [Lv Av].
    pose proof (skip_ws_length r1) as Lws.
    destruct (skip_ws r1) as [|c r'] eqn:Ews; [discriminate|]. cbn [length] in Lws.
    destruct (c =? 44) eqn:Ec.
    + destruct (parse_elements f r') as [[vs' rest]|] eqn:Ee; [|discriminate].
      injection H as <- <-. apply IHE in Ee as [Le Ae].
      split; [lia|]. intros [|g'] Hg; [lia|]. cbn [parse_elements].
      rewrite Av by lia. rewrite Ews, Ec, Ae by lia. reflexivity.
    + destruct (c =? 93) eqn:Ec'; [|discriminate].
      injection H as <- <-.
      split; [lia|]. intros [|g'] Hg; [lia|]. cbn [parse_elements].
      rewrite Av by lia. rewrite Ews, Ec, Ec'. reflexivity.
  - intros s ms r H. cbn [parse_members] in H.
    pose proof (skip_ws_length s) as Lws.
    destruct (skip_ws s) as [|q r0] eqn:Ews; [discriminate|]. cbn [length] in Lws.
    destruct (q =? 34) eqn:Eq; [|discriminate].
    destruct (string_chars r0) as [[key r1]|] eqn:Ekey; [|discriminate].
    pose proof (string_chars_length _ _ _ _ (le_n _) Ekey) as Lkey.
    pose proof (skip_ws_length r1) as Lws1.
    destruct (skip_ws r1) as [|colon r2] eqn:Ews1; [discriminate|]. cbn [length] in Lws1.
    destruct (colon =? 58) eqn:Ecolon; [|discriminate].
    destruct (parse_value f r2) as [[v r3]|] eqn:Ev; [|discriminate].
    apply IHV in Ev as [Lv Av].
    pose proof (skip_ws_length r3) as Lws3.
    destruct (skip_ws r3) as [|c r4] eqn:Ews3; [discriminate|]. cbn [length] in Lws3.
    destruct (c =? 44) eqn:Ec.
    + destruct (parse_members f r4) as [[ms' rest]|] eqn:Em; [|discriminate].
      injection H as <- <-. apply IHM in Em as [Lm Am].
      split; [lia|]. intros [|g'] Hg; [lia|]. cbn [parse_members].
      rewrite Ews, Eq, Ekey, Ews1, Ecolon. rewrite Av by lia.
      rewrite Ews3, Ec, Am by lia. reflexivity.
    + destruct (c =? 125) eqn:Ec'; [|discriminate].
      injection H as <- <-.
      split; [lia|]. intros [|g'] Hg; [lia|]. cbn [parse_members].
      rewrite Ews, Eq, Ekey, Ews1, Ecolon. rewrite Av by lia.
      rewrite Ews3, Ec, Ec'. reflexivity.
Qed.

(** The fuel [JSON.parse] gives itself is enough: a text that some fuel
    parses is parsed alike by [parse]. *)
Theorem parse_complete (fuel : nat) (text : jsstring) (v : value) (rest : jsstring) :
  parse_value fuel text = Some (v, rest) ->
  skip_ws rest = [] ->
  parse text = Normal v.
Proof.
  intros H Hrest. destruct (parse_fuel fuel) as (HV & _ & _).
  apply HV in H as [L A]. unfold parse.
  rewrite A by lia. now rewrite Hrest.
Qed.

Corollary parse_SyntaxError (text : jsstring) :
  parse text = Throw SyntaxError ->
  forall fuel v rest, parse_value fuel text = Some (v, rest) -> skip_ws rest <> [].
Proof.
  intros Hthrow fuel v rest H Hrest.
  rewrite (parse_complete fuel text v rest H Hrest) in Hthrow. discriminate.
Qed.
End FuelFacts.

Module PageFacts.
Import JSONFacts.

Lemma test_not_sounds : str "test" <> str "sounds".
Proof. discriminate. Qed.

(** The probe leaves every key but [test] as it was. *)
Lemma checkForLocalStorage_true (st st' : Storage) :
  checkForLocalStorage st = (true, st') ->
  accessible st = true
  /\ accessible st' = true
  /\ forall key, key <> str "test" -> items st' !! key = items st !! key.
Proof.
  unfold checkForLocalStorage, setItem, removeItem.
  destruct (accessible st); [|discriminate].
  destruct (_ <=? _)%N; [|discriminate].
  cbn [accessible items quota]. intros [= <-]. cbn [accessible items].
  split; [reflexivity|]. split; [reflexivity|]. intros key Hkey.
  rewrite lookup_delete_ne, lookup_insert_ne by congruence. reflexivity.
Qed.

Lemma checkForLocalStorage_false (st st' : Storage) :
  checkForLocalStorage st = (false, st') -> st' = st.
Proof.
  unfold checkForLocalStorage, setItem, removeItem.
  destruct (accessible st); [|congruence].
  destruct (_ <=? _)%N; [|congruence].
  cbn [accessible]. discriminate.
Qed.

Lemma setItem_Normal key v (st st' : Storage) :
  setItem key v st = Normal st' ->
  accessible st' = true /\ quota st' = quota st /\ items st' = <[key := v]> (items st).
Proof.
  unfold setItem. destruct (accessible st); [|discriminate].
  destruct (_ <=? _)%N; [|discriminate].
  intros [= <-]. auto.
Qed.

Lemma render_sounds_sounds l : forall p, sounds (fst (render_sounds l p)) = sounds p.
Proof.
  induction l as [|sound l IH]; intros p; cbn [render_sounds]; [reflexivity|].
  destruct (base64toBlob (data sound)); [|reflexivity].
  now rewrite IH.
Qed.

Lemma render_sounds_valid l : forall p,
  Forall valid_sound l -> snd (render_sounds l p) = Returned.
Proof.
  induction l as [|sound l IH]; intros p Hl; cbn [render_sounds]; [reflexivity|].
  apply Forall_cons in Hl as [[_ [bytes Hb]] Hl].
  rewrite (CodecFacts.base64toBlob_bytes _ _ Hb). now apply IH.
Qed.

(** What [load] does on a store holding a catalogue written by the script. *)
Lemma load_stringified (p : Page) (l : list SoundEntry) :
  hasLocalStorage p = true ->
  accessible (localStorage p) = true ->
  items (localStorage p) !! str "sounds" = Some (JSON_stringify l) ->
  Forall valid_sound l ->
  exists p', load p = (p', Returned) /\ sounds p' = l.
Proof.
  intros Hhas Hacc Hitem Hl. unfold load, getItem. rewrite Hhas, Hacc, Hitem.
  rewrite parse_stringify by (eapply Forall_impl; [exact Hl|]; now intros ? []).
  rewrite as_sounds_values. cbn [sounds set_sounds].
  set (q := set_sounds l p).
  pose proof (render_sounds_sounds l q) as Hs.
  pose proof (render_sounds_valid l q Hl) as Ho.
  destruct (render_sounds l q) as [p' o]. cbn [fst snd] in *. subst o.
  exists p'. split; [reflexivity|]. now rewrite Hs.
Qed.

Lemma append_sounds sound p : sounds (fst (append sound p)) = sounds p ++ [sound].
Proof.
  unfold append. cbn [hasLocalStorage set_sounds sounds localStorage].
  destruct (hasLocalStorage p); [|reflexivity].
  destruct (setItem _ _ _); reflexivity.
Qed.

(** The effect of an append whose write is accepted. *)
Lemma append_Returned sound (p p' : Page) :
  hasLocalStorage p = true ->
  append sound p = (p', Returned) ->
  sounds p' = sounds p ++ [sound]
  /\ hasLocalStorage p' = true
  /\ accessible (localStorage p') = true
  /\ items (localStorage p')
     = <[str "sounds" := JSON_stringify (sounds p ++ [sound])]> (items (localStorage p)).
Proof.
  intros Hhas. unfold append.
  cbn [hasLocalStorage set_sounds sounds localStorage]. rewrite Hhas.
  destruct (setItem _ _ _) as [st|e] eqn:Hset; [|discriminate].
  intros [= <-]. cbn [sounds set_localStorage hasLocalStorage localStorage].
  apply setItem_Normal in Hset as (Hacc & _ & Hitems). auto.
Qed.
End PageFacts.

(** ** The catalogue *)

(** C4.  [append] puts the sound at the end of the sequence in memory in
    every store state: when the store is not used, when the write returns,
    and when the write throws. *)
Theorem append_in_memory (sound : SoundEntry) (p : Page) :
  sounds (fst (append sound p)) = sounds p ++ [sound].
Proof. apply PageFacts.append_sounds. Qed.

(** C5.  When the storage cannot be used, or holds nothing under the key
    [sounds], the script ends normally with an empty catalogue. *)
Theorem load_absent_is_empty (mediaDevices bare_empty strict : bool) (storage : Storage)
    (button_text : jsstring) :
  accessible storage = false \/ items storage !! str "sounds" = None ->
  exists p, script mediaDevices bare_empty strict storage button_text = (p, Returned)
            /\ sounds p = [].
Proof.
  intros Habsent. unfold script.
  destruct (checkForLocalStorage storage) as [[|] storage'] eqn:Hprobe.
  - apply PageFacts.checkForLocalStorage_true in Hprobe as (Hacc & Hacc' & Hkeys).
    destruct Habsent as [Hno|Hnone]; [congruence|].
    unfold initUI, load, getItem. cbn [hasLocalStorage localStorage].
    rewrite Hacc', Hkeys, Hnone by (symmetry; apply PageFacts.test_not_sounds).
    change (JSON.parse (str "null")) with (Normal JSON.JNull).
    cbn [sounds set_sounds render_sounds].
    eexists. split; reflexivity.
  - unfold initUI, load. cbn [hasLocalStorage].
    eexists. split; reflexivity.
Qed.

Lemma load_absent_is_empty_witness :
  items empty_storage !! str "sounds" = None
  /\ exists p, script true false false empty_storage (str "Record New Sound") = (p, Returned)
               /\ sounds p = [].
Proof.
  split; [reflexivity|].
  apply (load_absent_is_empty true false false empty_storage (str "Record New Sound")).
  right. reflexivity.
Defined.

(** C2, as the script behaves.  When the value under [sounds] is not
    parseable, the catalogue in memory stays empty; the script ends normally
    only when the probe of the storage failed, and otherwise [JSON.parse]
    throws a [SyntaxError] that [initUI] does not catch, so that the click
    handler is never bound. *)
Theorem load_corrupted (mediaDevices bare_empty strict : bool) (storage : Storage)
    (button_text value : jsstring) :
  items storage !! str "sounds" = Some value ->
  JSON.parse value = Throw SyntaxError ->
  exists p,
    script mediaDevices bare_empty strict storage button_text
    = (p, if fst (checkForLocalStorage storage) then Threw SyntaxError else Returned)
    /\ sounds p = []
    /\ recordBtn_onclick p = negb (fst (checkForLocalStorage storage)).
Proof.
  intros Hvalue Hparse. unfold script.
  destruct (checkForLocalStorage storage) as [[|] storage'] eqn:Hprobe; cbn [fst negb].
  - apply PageFacts.checkForLocalStorage_true in Hprobe as (Hacc & Hacc' & Hkeys).
    unfold initUI, load, getItem. cbn [hasLocalStorage localStorage].
    rewrite Hacc', Hkeys, Hvalue, Hparse by (symmetry; apply PageFacts.test_not_sounds).
    eexists. repeat split; reflexivity.
  - unfold initUI, load. cbn [hasLocalStorage].
    eexists. repeat split; reflexivity.
Qed.

Lemma load_corrupted_witness :
  items corrupted_storage !! str "sounds" = Some (str "{")
  /\ JSON.parse (str "{") = Throw SyntaxError
  /\ exists p,
       script true false false corrupted_storage (str "Record New Sound")
       = (p, if fst (checkForLocalStorage corrupted_storage)
             then Threw SyntaxError else Returned)
       /\ sounds p = []
       /\ recordBtn_onclick p = negb (fst (checkForLocalStorage corrupted_storage)).
Proof.
  split; [reflexivity|]. split; [reflexivity|].
  apply (load_corrupted true false false corrupted_storage (str "Record New Sound") (str "{"));
    reflexivity.
Defined.

(** C2, as stated, fails: on a store whose value under [sounds] is the text
    of one opening brace, the script does not end normally. *)
Lemma load_corrupted_not_soft :
  ~ (forall (storage : Storage) (value : jsstring),
       items storage !! str "sounds" = Some value ->
       JSON.parse value = Throw SyntaxError ->
       exists p, script true false false storage (str "Record New Sound") = (p, Returned)
                 /\ sounds p = []).
Proof.
  intros Hclaim.
  destruct (Hclaim corrupted_storage (str "{") eq_refl eq_refl) as [p [Hp _]].
  vm_compute in Hp. discriminate Hp.
Qed.




(** C3, as the script behaves.  When the store was found at start, both
    writes are accepted and the store is found again when the page is opened
    anew, the script started on that store ends with the previous sounds
    followed by the two appended ones, in this order. *)
Theorem append_append_load (p p1 p2 : Page) (e1 e2 : SoundEntry)
    (mediaDevices bare_empty strict : bool) (button_text : jsstring) :
  hasLocalStorage p = true ->
  append e1 p = (p1, Returned) ->
  append e2 p1 = (p2, Returned) ->
  fst (checkForLocalStorage (localStorage p2)) = true ->
  Forall valid_sound (sounds p ++ [e1; e2]) ->
  exists p', script mediaDevices bare_empty strict (localStorage p2) button_text = (p', Returned)
             /\ sounds p' = sounds p ++ [e1; e2]
             /\ (sounds p = [] -> sounds p' = [e1; e2]).
Proof.
  intros Hhas H1 H2 Hprobe Hvalid.
  destruct (PageFacts.append_Returned e1 p p1 Hhas H1) as (Hs1 & Hhas1 & _ & _).
  destruct (PageFacts.append_Returned e2 p1 p2 Hhas1 H2) as (Hs2 & _ & _ & Hitems2).
  rewrite Hs1, <- app_assoc in Hs2, Hitems2. cbn [app] in Hs2, Hitems2.
  unfold script.
  destruct (checkForLocalStorage (localStorage p2)) as [has storage'] eqn:Hc.
  cbn [fst] in Hprobe. subst has.
  apply PageFacts.checkForLocalStorage_true in Hc as (_ & Hacc' & Hkeys).
  set (q := {| hasLocalStorage := true; localStorage := storage' |}).
  destruct (PageFacts.load_stringified q (sounds p ++ [e1; e2])) as (p' & Hload & Hsounds).
  - reflexivity.
  - exact Hacc'.
  - cbn [localStorage q]. rewrite Hkeys by (symmetry; apply PageFacts.test_not_sounds).
    rewrite Hitems2. apply lookup_insert_eq.
  - exact Hvalid.
  - unfold initUI. rewrite Hload. eexists. split; [reflexivity|].
    cbn [sounds set_recordBtn_onclick]. split; [exact Hsounds|].
    intros Hnil. now rewrite Hsounds, Hnil.
Qed.

Lemma append_append_load_witness :
  let p := fst (script true false false empty_storage (str "Record New Sound")) in
  let p1 := fst (append clap p) in
  let p2 := fst (append snap p1) in
  exists p', script true false false (localStorage p2) (str "Record New Sound") = (p', Returned)
             /\ sounds p' = sounds p ++ [clap; snap]
             /\ (sounds p = [] -> sounds p' = [clap; snap]).
Proof.
  intros p p1 p2.
  apply (append_append_load p p1 p2 clap snap true false false (str "Record New Sound")).
  - reflexivity.
  - reflexivity.
  - reflexivity.
  - reflexivity.
  - repeat constructor; try apply JSONFacts.wf_string_str; eexists; reflexivity.
Defined.

(** C3, as stated, fails.  On a store with room for the first sound and not
    for both, the second write throws and the store keeps the first sound
    only, which is what the script finds when the page is opened anew.  On a
    storage that cannot be used, nothing is written and the script finds
    nothing. *)
Lemma append_append_load_lost :
  (let p := fst (script true false false small_storage (str "Record New Sound")) in
   let p1 := fst (append clap p) in
   let p2 := fst (append snap p1) in
   sounds p = []
   /\ append clap p = (p1, Returned)
   /\ append snap p1 = (p2, Threw QuotaExceededError)
   /\ sounds p2 = [clap; snap]
   /\ exists p', script true false false (localStorage p2) (str "Record New Sound")
                 = (p', Returned)
                 /\ sounds p' = [clap]
                 /\ sounds p' <> sounds p ++ [clap; snap])
  /\ (let p := fst (script true false false closed_storage (str "Record New Sound")) in
      let p1 := fst (append clap p) in
      let p2 := fst (append snap p1) in
      sounds p = []
      /\ append clap p = (p1, Returned)
      /\ append snap p1 = (p2, Returned)
      /\ sounds p2 = [clap; snap]
      /\ exists p', script true false false (localStorage p2) (str "Record New Sound")
                    = (p', Returned)
                    /\ sounds p' = []
                    /\ sounds p' <> sounds p ++ [clap; snap]).
Proof.
  split.
  - intros p p1 p2. repeat split; try reflexivity.
    eexists. split; [vm_compute; reflexivity|]. split; [reflexivity|].
    intros H. vm_compute in H. discriminate H.
  - intros p p1 p2. repeat split; try reflexivity.
    eexists. split; [vm_compute; reflexivity|]. split; [reflexivity|].
    intros H. vm_compute in H. discriminate H.
Qed.

(** ** The recording session *)

(** C7.  Without media devices a click on the record button changes nothing
    of the page: flag, catalogue, store and button stay as they are, and the
    handler returns normally. *)
Theorem click_without_mediaDevices (p : Page) :
  mediaDevices p = false -> step Click p = Some (p, Returned).
Proof.
  intros Hmd. cbn [step]. unfold onclick. rewrite Hmd. cbn [negb].
  now destruct (recordBtn_onclick p).
Qed.

Lemma click_without_mediaDevices_witness :
  let p := fst (script false false false empty_storage (str "Record New Sound")) in
  mediaDevices p = false /\ step Click p = Some (p, Returned).
Proof.
  intros p. split; [reflexivity|].
  apply (click_without_mediaDevices p). reflexivity.
Defined.

(** The page a handler leaves, from the equation of its step. *)
Ltac result_of H :=
  apply (f_equal (option_map fst)) in H; cbn [option_map] in H;
  injection H as H; subst.

(** C8, as the script behaves.  Only a click changes the recording flag.
    With media devices, a click in Idle leads to Recording; a click in
    Recording leads back to Idle when a recorder has been created, and
    changes nothing before that.  Without media devices a click changes
    nothing. *)
Theorem recording_session_machine (ev : Event) (p p' : Page) (o : Outcome) :
  recordBtn_onclick p = true ->
  step ev p = Some (p', o) ->
  session p'
  = match ev with
    | Click =>
        if mediaDevices p then
          match session p, mediaRecorder p with
          | Idle, _ => Recording
          | Recording, Some _ => Idle
          | Recording, None => Recording
          end
        else session p
    | _ => session p
    end.
Proof.
  intros Hbound Hstep. destruct ev; cbn [step] in Hstep.
  - rewrite Hbound in Hstep. result_of Hstep.
    unfold onclick, session.
    destruct (mediaDevices p); cbn [negb fst]; [|reflexivity].
    destruct (recording p) eqn:Hrec.
    + destruct (mediaRecorder p) as [r|]; cbn [fst].
      * unfold MediaRecorder_stop.
        cbn [recorders strict_stop set_recording set_recordBtn_textContent].
        destruct (recorders p !! r) as [rc|];
          [destruct (rec_active rc); [|destruct (strict_stop p)]|]; reflexivity.
      * now rewrite Hrec.
    + reflexivity.
  - destruct (requests p); [discriminate|]. now result_of Hstep.
  - destruct (requests p); [discriminate|]. now result_of Hstep.
  - destruct (recorders p !! r) as [rc|]; [|discriminate].
    destruct (rec_stopped rc); [discriminate|]. now result_of Hstep.
  - destruct (recorders p !! r) as [rc|]; [|discriminate].
    destruct (rec_stopped rc); [discriminate|]. now result_of Hstep.
  - destruct (readers p !! k) as [rd|]; [|discriminate].
    result_of Hstep.
    unfold onloadend, append, session.
    cbn [hasLocalStorage set_sounds set_readers sounds localStorage recording].
    destruct (hasLocalStorage p); [|reflexivity].
    destruct (setItem _ _ _); reflexivity.
Qed.

Lemma recording_session_machine_witness :
  let p := fst (script true false false empty_storage (str "Record New Sound")) in
  let p' := fst (onclick p) in
  recordBtn_onclick p = true
  /\ step Click p = Some (p', Returned)
  /\ session p' = Recording.
Proof.
  intros p p'. split; [reflexivity|]. split; [reflexivity|].
  apply (recording_session_machine Click p p' Returned); reflexivity.
Defined.

Module SessionFacts.

Lemma refused_step (ev : Event) (p p' : Page) (o : Outcome) :
  refused p -> step ev p = Some (p', o) -> p' = p.
Proof.
  intros (Hrec & Hmr & Hreq & Hrcs & Hrds) Hstep.
  destruct ev; cbn [step] in Hstep.
  - unfold onclick in Hstep. rewrite Hrec, Hmr in Hstep.
    destruct (recordBtn_onclick p), (mediaDevices p); cbn [negb] in Hstep; congruence.
  - rewrite Hreq in Hstep. discriminate.
  - rewrite Hreq in Hstep. discriminate.
  - rewrite Hrcs in Hstep. discriminate.
  - rewrite Hrcs in Hstep. discriminate.
  - rewrite Hrds in Hstep. discriminate.
Qed.

Lemma refused_run (evs : list Event) : forall p p',
  refused p -> run evs p = Some p' -> p' = p.
Proof.
  induction evs as [|ev evs IH]; intros p p' Hp Hrun; cbn [run] in Hrun.
  - congruence.
  - destruct (step ev p) as [[q o]|] eqn:Hstep; [|discriminate].
    apply (refused_step ev p q o Hp) in Hstep. subst q. now apply IH.
Qed.

End SessionFacts.

(** C8, as stated, fails: once the request for the microphone is refused,
    the session is in Recording, a click leaves it there, and so does every
    run of events. *)
Lemma recording_session_stuck :
  let p0 := fst (script true false false empty_storage (str "Record New Sound")) in
  exists p,
    script true false false empty_storage (str "Record New Sound") = (p0, Returned)
    /\ run [Click; StreamDenied] p0 = Some p
    /\ session p = Recording
    /\ step Click p = Some (p, Returned)
    /\ session p <> toggle (session p)
    /\ forall evs p', run evs p = Some p' -> session p' = Recording.
Proof.
  intros p0. eexists. split; [reflexivity|]. split; [reflexivity|].
  split; [reflexivity|]. split; [reflexivity|]. split; [discriminate|].
  intros evs p' Hrun.
  apply SessionFacts.refused_run in Hrun; [now subst p'|].
  repeat split.
Qed.

(** C9.  The sound stored for a recording carries as its name the string
    the user gave, and the empty string when the prompt was dismissed. *)
Theorem stored_name_is_string (p p1 p2 : Page) (r : nat) (answer : option jsstring)
    (o1 o2 : Outcome) :
  step (RecorderStop r answer) p = Some (p1, o1) ->
  step (LoadEnd (length (readers p))) p1 = Some (p2, o2) ->
  exists text,
    sounds p2 = sounds p ++ [{| name := match answer with Some s => s | None => [] end;
                                data := text |}].
Proof.
  intros H1 H2. cbn [step] in H1.
  destruct (recorders p !! r) as [rc|]; [|discriminate].
  destruct (rec_stopped rc); [discriminate|].
  result_of H1.
  cbn [step onstop fst readers set_readers createSoundboardButton set_board
       set_recorder set_recorders] in H2.
  rewrite list_lookup_middle in H2 by reflexivity.
  result_of H2.
  eexists. unfold onloadend. rewrite PageFacts.append_sounds.
  cbn [sounds set_readers reader_name]. do 2 f_equal.
  unfold prompt_name. destruct answer as [[|c s]|]; reflexivity.
Qed.

Lemma stored_name_is_string_witness :
  let p0 := fst (script true false false empty_storage (str "Record New Sound")) in
  let p := default p0 (run [Click; StreamGranted; Click] p0) in
  let p1 := fst (default (p, Returned) (step (RecorderStop 0 None) p)) in
  let p2 := fst (default (p1, Returned) (step (LoadEnd 0) p1)) in
  step (RecorderStop 0 None) p = Some (p1, Returned)
  /\ step (LoadEnd (length (readers p))) p1 = Some (p2, Returned)
  /\ exists text, sounds p2 = sounds p ++ [{| name := []; data := text |}].
Proof.
  intros p0 p p1 p2. split; [reflexivity|]. split; [reflexivity|].
  apply (stored_name_is_string p p1 p2 0 None Returned Returned); reflexivity.
Defined.

(** * Further properties of the script *)

Module CodecMore.
Import Base64.
Local Open Scope N_scope.

Lemma index_bound c i : index c = Some i -> i < 64.
Proof.
  unfold index. Base64Facts.split_tests; intros [= <-]; lia.
Qed.

Lemma sextets_bound data : forall l, sextets data = Some l -> Forall (fun i => i < 64) l.
Proof.
  induction data as [|c data IH]; intros l; cbn [sextets].
  - intros [= <-]. constructor.
  - destruct (index c) as [i|] eqn:Hi; [|discriminate].
    destruct (sextets data) as [l'|]; [|discriminate].
    intros [= <-]. constructor; [eapply index_bound, Hi|now apply IH].
Qed.

Lemma list_ind4 {A} (P : list A -> Prop) :
  P [] -> (forall a, P [a]) -> (forall a b, P [a; b]) -> (forall a b c, P [a; b; c]) ->
  (forall a b c d l, P l -> P (a :: b :: c :: d :: l)) ->
  forall l, P l.
Proof.
  intros H0 H1 H2 H3 H4.
  fix IH 1. intros [|a [|b [|c [|d l]]]];
    [apply H0 | apply H1 | apply H2 | apply H3 | apply H4, IH].
Qed.

Lemma bytes_of_sextets_bound l :
  Forall (fun i => i < 64) l -> Forall (fun b => b < 256) (bytes_of_sextets l).
Proof.
  induction l as [|a|a b|a b c|a b c d l IH] using list_ind4; intros Hl;
    cbn [bytes_of_sextets]; repeat (apply Forall_cons in Hl as [? Hl]).
  - constructor.
  - constructor.
  - repeat constructor. Base64Facts.euclidean; lia.
  - repeat constructor; Base64Facts.euclidean; lia.
  - repeat (constructor; [Base64Facts.euclidean; lia|]). now apply IH.
Qed.

(** Every character [atob] returns is below 256. *)
Lemma atob_bytes (data chars : jsstring) :
  atob data = Normal chars -> Forall (fun b => b < 256) chars.
Proof.
  unfold atob, forgiving_decode.
  destruct (_ =? 1)%nat; [discriminate|].
  destruct (sextets _) as [l|] eqn:Hl; [|discriminate].
  intros [= <-]. eapply bytes_of_sextets_bound, sextets_bound, Hl.
Qed.

Lemma to_N_to_uint8 n : n < 256 -> Byte.to_N (to_uint8 n) = n.
Proof.
  intros Hn. unfold to_uint8. rewrite N.mod_small by exact Hn.
  destruct (Byte.of_N n) as [b|] eqn:Hb.
  - now apply Byte.to_of_N.
  - apply Byte.of_N_None_iff in Hb. lia.
Qed.

End CodecMore.

(** X1.  [base64toBlob] ends exactly as [atob] does: on text that is not
    base64 it throws [InvalidCharacterError], and otherwise it returns the
    blob of the decoded characters; its loops never read outside the string. *)
Theorem base64toBlob_outcome (base64Data : jsstring) :
  base64toBlob base64Data
  = match atob base64Data with
    | Normal byteCharacters =>
        Normal {| blob_type := []; blob_bytes := map to_uint8 byteCharacters |}
    | Throw _ => Throw InvalidCharacterError
    end.
Proof.
  destruct (atob base64Data) as [chars|e] eqn:Hatob.
  - now apply CodecFacts.base64toBlob_bytes.
  - unfold base64toBlob. rewrite Hatob. cbn [mbind Completion_bind].
    unfold atob in Hatob. destruct (Base64.forgiving_decode base64Data); congruence.
Qed.

(** X2.  The conversion to [Uint8Array] loses nothing: the bytes of the blob,
    read as numbers, are the character codes [atob] returned. *)
Theorem base64toBlob_lossless (base64Data byteCharacters : jsstring) (blob : Blob) :
  atob base64Data = Normal byteCharacters ->
  base64toBlob base64Data = Normal blob ->
  map Byte.to_N (blob_bytes blob) = byteCharacters.
Proof.
  intros Hatob Hblob.
  rewrite (CodecFacts.base64toBlob_bytes _ _ Hatob) in Hblob.
  injection Hblob as <-. cbn [blob_bytes]. rewrite map_map.
  pose proof (CodecMore.atob_bytes _ _ Hatob) as Hb. clear Hatob.
  induction Hb as [|c cs Hc _ IH]; cbn [map]; [reflexivity|].
  rewrite CodecMore.to_N_to_uint8 by exact Hc. now rewrite IH.
Qed.

Lemma base64toBlob_lossless_witness :
  map Byte.to_N (blob_bytes {| blob_type := []; blob_bytes := [x9e; xe9; x65] |})
  = [158; 233; 101]%N.
Proof.
  apply (base64toBlob_lossless (str "null") [158; 233; 101]%N
           {| blob_type := []; blob_bytes := [x9e; xe9; x65] |});
    reflexivity.
Defined.

Module SliceFacts.
Import BlobFacts.

Lemma below_ceil_div (a b k : nat) : b <> 0 -> k < ceil_div a b -> k * b < a.
Proof.
  intros Hb. unfold ceil_div.
  pose proof (Nat.div_mod_eq a b) as Hdm.
  pose proof (Nat.mod_upper_bound a b Hb) as Hlt.
  destruct (Nat.eqb_spec (a mod b) 0); nia.
Qed.

Lemma slice_of_length (size : nat) (chars : jsstring) (k : nat) :
  length (slice_of size chars k) = Nat.min size (length chars - k * size).
Proof. rewrite slice_of_take, length_take, length_drop. reflexivity. Qed.

End SliceFacts.

(** X3.  The arrays [base64toBlob] hands to the blob: there are
    [ceil (length / 1024)] of them, none is empty, all but the last hold 1024
    bytes, and together they hold the decoded characters in order. *)
Theorem base64toBlob_slices (byteCharacters : jsstring) :
  exists byteArrays : list (list byte),
    fill_slices (ceil_div (length byteCharacters) sliceSize) sliceSize byteCharacters 0
      (new_Array (ceil_div (length byteCharacters) sliceSize))
    = Normal (map Some byteArrays)
    /\ length byteArrays = ceil_div (length byteCharacters) sliceSize
    /\ concat byteArrays = map to_uint8 byteCharacters
    /\ Forall (fun a => 0 < length a <= sliceSize) byteArrays
    /\ forall k a, byteArrays !! k = Some a -> S k < length byteArrays ->
                   length a = sliceSize.
Proof.
  set (n := ceil_div (length byteCharacters) sliceSize).
  exists (map (fun k => map to_uint8 (slice_of sliceSize byteCharacters k)) (seq 0 n)).
  assert (Hsize : sliceSize <> 0) by discriminate.
  split; [|split; [|split; [|split]]].
  - pose proof (BlobFacts.fill_slices_copies sliceSize byteCharacters n 0 [] eq_refl) as Hs.
    cbn [app] in Hs. unfold new_Array. rewrite Hs. now rewrite map_map.
  - now rewrite length_map, length_seq.
  - rewrite <- (map_map (slice_of sliceSize byteCharacters) (map to_uint8)).
    rewrite <- concat_map, BlobFacts.slices_concat. cbn [Nat.mul drop].
    rewrite take_ge; [reflexivity|]. now apply CodecFacts.ceil_div_covers.
  - apply Forall_forall. intros a Ha.
    apply list_elem_of_In, in_map_iff in Ha as (k & <- & Hk).
    apply in_seq in Hk. rewrite length_map, SliceFacts.slice_of_length.
    pose proof (SliceFacts.below_ceil_div (length byteCharacters) sliceSize k Hsize
                  ltac:(fold n; lia)).
    lia.
  - intros k a Hka Hk. rewrite length_map, length_seq in Hk.
    rewrite list_lookup_fmap, lookup_seq_lt in Hka by lia.
    injection Hka as <-. rewrite length_map, SliceFacts.slice_of_length.
    pose proof (SliceFacts.below_ceil_div (length byteCharacters) sliceSize (S k) Hsize
                  ltac:(fold n; lia)).
    cbn [Nat.add]. lia.
Qed.

Module StringMore.

Lemma starts_with_app (search text : jsstring) : starts_with search (search ++ text) = true.
Proof.
  induction search as [|a search IH]; [reflexivity|].
  cbn [app starts_with]. now rewrite N.eqb_refl, IH.
Qed.

(** A match that needs characters beyond [s] is no match in [s]; a mismatch
    within [s] stays one however [s] goes on. *)
Lemma starts_with_extend (search s text : jsstring) :
  length search <= length s ->
  starts_with search (s ++ text) = starts_with search s.
Proof.
  revert s. induction search as [|a search IH]; intros [|b s] Hlen; cbn in Hlen;
    try reflexivity; try lia.
  cbn [app starts_with]. rewrite IH by lia. reflexivity.
Qed.

Lemma indexOf_from_hit (search s : jsstring) (pos : Z) :
  starts_with search s = true -> indexOf_from search s pos = pos.
Proof. intros H. destruct s; cbn [indexOf_from]; now rewrite H. Qed.

Lemma indexOf_from_extend (search header text : jsstring) : forall pos,
  indexOf_from search (header ++ search) pos = (pos + Z.of_nat (length header))%Z ->
  indexOf_from search (header ++ search ++ text) pos = (pos + Z.of_nat (length header))%Z.
Proof.
  induction header as [|c header IH]; intros pos H.
  - cbn [app length]. rewrite indexOf_from_hit by apply starts_with_app. lia.
  - cbn [app length] in *. cbn [indexOf_from] in *.
    rewrite app_assoc.
    change (c :: (header ++ search) ++ text) with ((c :: header ++ search) ++ text).
    rewrite starts_with_extend by (cbn [length]; rewrite length_app; lia).
    destruct (starts_with search (c :: header ++ search)); [lia|].
    rewrite <- app_assoc. rewrite IH; lia.
Qed.

End StringMore.

(** X4.  The text the script keeps from a data URL is what follows the first
    [base64,]: whatever the media type, as long as the marker does not occur
    in the header before its own place, the payload is kept whole and nothing
    else. *)
Theorem strip_data_url_payload (header payload : jsstring) :
  indexOf (header ++ str "base64,") (str "base64,") = Z.of_nat (length header) ->
  strip_data_url (header ++ str "base64," ++ payload) = payload.
Proof.
  intros Hfirst. unfold strip_data_url, indexOf in *.
  rewrite (StringMore.indexOf_from_extend _ _ _ 0%Z) by (rewrite Hfirst; lia).
  rewrite CodecFacts.slice_drop by (rewrite !length_app; lia).
  replace (Z.to_nat (0 + Z.of_nat (length header) + Z.of_nat (length (str "base64,"))))
    with (length header + length (str "base64,")) by lia.
  rewrite <- drop_drop, drop_app_length, drop_app_length. reflexivity.
Qed.

Lemma strip_data_url_payload_witness :
  strip_data_url (str "data:audio/webm;codecs=opus;" ++ str "base64," ++ str "UklGRg==")
  = str "UklGRg==".
Proof.
  apply (strip_data_url_payload (str "data:audio/webm;codecs=opus;") (str "UklGRg==")).
  reflexivity.
Defined.

(** X5.  When the reader's result holds no [base64,] at all, [indexOf]
    answers -1 and the script, which does not test for it, keeps the result
    from its seventh character on. *)
Theorem strip_data_url_no_marker (result : jsstring) :
  indexOf result (str "base64,") = (-1)%Z ->
  strip_data_url result = drop 6 result.
Proof.
  intros Hnone. unfold strip_data_url. rewrite Hnone.
  change (-1 + Z.of_nat (length (str "base64,")))%Z with 6%Z.
  unfold slice. cbn [Z.ltb Z.compare].
  destruct (Z.le_gt_cases 6 (Z.of_nat (length result))) as [Hlen|Hlen].
  - now rewrite Z.min_l by lia.
  - rewrite Z.min_r by lia. rewrite Nat2Z.id.
    rewrite drop_all. symmetry. apply drop_ge. lia.
Qed.

Lemma strip_data_url_no_marker_witness :
  indexOf (str "data:") (str "base64,") = (-1)%Z
  /\ strip_data_url (str "data:") = drop 6 (str "data:").
Proof.
  split; [reflexivity|].
  apply (strip_data_url_no_marker (str "data:")). reflexivity.
Defined.

Module PageMore.
Import JSONFacts.

Lemma render_sounds_frame l : forall p,
  let p' := fst (render_sounds l p) in
  localStorage p' = localStorage p /\ hasLocalStorage p' = hasLocalStorage p
  /\ recording p' = recording p /\ mediaRecorder p' = mediaRecorder p
  /\ recorders p' = recorders p /\ requests p' = requests p /\ readers p' = readers p
  /\ recordBtn_textContent p' = recordBtn_textContent p
  /\ recordBtn_onclick p' = recordBtn_onclick p
  /\ mediaDevices p' = mediaDevices p.
Proof.
  induction l as [|sound l IH]; intros p; cbn [render_sounds].
  - cbn. repeat split.
  - destruct (base64toBlob (data sound)) as [blob|e]; [|cbn; repeat split].
    apply (IH (createSoundboardButton (name sound) blob p)).
Qed.

(** The cards [render_sounds] adds: one for each sound, in order, up to the
    first sound that does not decode. *)
Lemma render_sounds_board l : forall p,
  exists cards,
    board (fst (render_sounds l p)) = board p ++ cards
    /\ match snd (render_sounds l p) with
       | Returned => Forall2 shows l cards
       | Threw e =>
           e = InvalidCharacterError
           /\ exists good bad rest,
                l = good ++ bad :: rest /\ Forall2 shows good cards
                /\ atob (data bad) = Throw InvalidCharacterError
       | OutOfModel => False
       end.
Proof.
  induction l as [|sound l IH]; intros p; cbn [render_sounds].
  - exists []. cbn [fst snd]. split; [now rewrite app_nil_r|constructor].
  - destruct (base64toBlob (data sound)) as [blob|e] eqn:Hblob.
    + destruct (IH (createSoundboardButton (name sound) blob p)) as (cards & Hb & Ho).
      exists ({| card_text := name sound; card_sound := blob |} :: cards).
      split.
      * rewrite Hb. cbn [board createSoundboardButton set_board].
        now rewrite <- app_assoc.
      * destruct (snd (render_sounds l _)) as [|e|].
        -- constructor; [split; [reflexivity|exact Hblob]|exact Ho].
        -- destruct Ho as (-> & good & bad & rest & -> & Hgood & Hbad).
           split; [reflexivity|].
           exists (sound :: good), bad, rest. split; [reflexivity|].
           split; [|exact Hbad].
           constructor; [split; [reflexivity|exact Hblob]|exact Hgood].
        -- exact Ho.
    + exists []. cbn [fst snd]. split; [now rewrite app_nil_r|].
      unfold base64toBlob in Hblob.
      destruct (atob (data sound)) as [chars|e'] eqn:Hatob.
      * rewrite (CodecFacts.base64toBlob_bytes _ _ Hatob) in Hblob || idtac.
        pose proof (CodecFacts.base64toBlob_bytes _ _ Hatob) as Hb.
        unfold base64toBlob in Hb. rewrite Hatob in Hb. congruence.
      * cbn [mbind Completion_bind] in Hblob. injection Hblob as <-.
        assert (e' = InvalidCharacterError) as ->.
        { unfold atob in Hatob. destruct (Base64.forgiving_decode _); congruence. }
        split; [reflexivity|].
        exists [], sound, l. repeat split; [constructor|exact Hatob].
Qed.

Lemma load_frame (p : Page) :
  let p' := fst (load p) in
  localStorage p' = localStorage p /\ hasLocalStorage p' = hasLocalStorage p
  /\ recording p' = recording p /\ mediaRecorder p' = mediaRecorder p
  /\ recorders p' = recorders p /\ requests p' = requests p /\ readers p' = readers p
  /\ recordBtn_textContent p' = recordBtn_textContent p
  /\ recordBtn_onclick p' = recordBtn_onclick p
  /\ mediaDevices p' = mediaDevices p.
Proof.
  cbn zeta. unfold load.
  destruct (hasLocalStorage p) eqn:Hhas; rewrite <- ?Hhas; [|cbn; repeat split].
  clear Hhas.
  assert (Hrender : forall ss,
    let p' := fst (render_sounds (sounds (set_sounds ss p)) (set_sounds ss p)) in
    localStorage p' = localStorage p /\ hasLocalStorage p' = hasLocalStorage p
    /\ recording p' = recording p /\ mediaRecorder p' = mediaRecorder p
    /\ recorders p' = recorders p /\ requests p' = requests p /\ readers p' = readers p
    /\ recordBtn_textContent p' = recordBtn_textContent p
    /\ recordBtn_onclick p' = recordBtn_onclick p
    /\ mediaDevices p' = mediaDevices p).
  { intros ss. apply (render_sounds_frame ss (set_sounds ss p)). }
  cbn zeta in Hrender.
  destruct (getItem _ _) as [item|e]; [|cbn; repeat split].
  destruct (JSON.parse _) as [v|e]; [|cbn; repeat split].
  destruct v as [| [|] | | [|c s] | l | ]; try (cbn [fst]; repeat split; fail).
  destruct (as_sounds l) as [ss|]; [|cbn [fst]; repeat split].
  apply Hrender.
Qed.

Lemma initUI_frame (p : Page) :
  let p' := fst (initUI p) in
  localStorage p' = localStorage p /\ hasLocalStorage p' = hasLocalStorage p
  /\ recording p' = recording p /\ mediaRecorder p' = mediaRecorder p
  /\ recorders p' = recorders p /\ requests p' = requests p /\ readers p' = readers p
  /\ recordBtn_textContent p' = recordBtn_textContent p
  /\ mediaDevices p' = mediaDevices p.
Proof.
  unfold initUI. pose proof (load_frame p) as H. cbn zeta in H.
  destruct (load p) as [p' [|e|]]; cbn [fst] in *; intuition.
Qed.

(** [load] on a store holding a catalogue the script wrote. *)
Lemma load_stringified_eq (p : Page) (l : list SoundEntry) :
  hasLocalStorage p = true ->
  accessible (localStorage p) = true ->
  items (localStorage p) !! str "sounds" = Some (JSON_stringify l) ->
  Forall wf_sound l ->
  load p = render_sounds l (set_sounds l p).
Proof.
  intros Hhas Hacc Hitem Hl. unfold load, getItem. rewrite Hhas, Hacc, Hitem.
  rewrite parse_stringify by exact Hl.
  now rewrite as_sounds_values.
Qed.

Lemma script_stringified (mediaDevices bare_empty strict : bool) (storage : Storage)
    (button_text : jsstring) (l : list SoundEntry) :
  items storage !! str "sounds" = Some (JSON_stringify l) ->
  fst (checkForLocalStorage storage) = true ->
  Forall wf_sound l ->
  exists q,
    board q = [] /\ sounds q = l /\ recordBtn_onclick q = false
    /\ script mediaDevices bare_empty strict storage button_text
       = match render_sounds l q with
         | (p', Returned) => (set_recordBtn_onclick true p', Returned)
         | (p', o) => (p', o)
         end.
Proof.
  intros Hitem Hprobe Hl. unfold script.
  destruct (checkForLocalStorage storage) as [has storage'] eqn:Hc.
  cbn [fst] in Hprobe. subst has.
  apply PageFacts.checkForLocalStorage_true in Hc as (_ & Hacc' & Hkeys).
  match goal with |- context [initUI ?q0] => exists (set_sounds l q0) end.
  split; [reflexivity|]. split; [reflexivity|]. split; [reflexivity|].
  unfold initUI. rewrite (load_stringified_eq _ l); [reflexivity|reflexivity|exact Hacc'| |exact Hl].
  cbn [localStorage].
  now rewrite Hkeys by (symmetry; apply PageFacts.test_not_sounds).
Qed.

End PageMore.

(** X6.  The probe of [checkForLocalStorage] keeps the access and the quota
    of the storage.  When it answers true, the storage has lost whatever it
    held under the key [test] and holds every other item as before; when it
    answers false, the storage is as it was. *)
Theorem checkForLocalStorage_effect (st st' : Storage) (answer : bool) :
  checkForLocalStorage st = (answer, st') ->
  accessible st' = accessible st
  /\ quota st' = quota st
  /\ items st' = if answer then delete (str "test") (items st) else items st.
Proof.
  unfold checkForLocalStorage, setItem, removeItem.
  destruct (accessible st) eqn:Hacc; [|intros [= <- <-]; auto].
  destruct (_ <=? _)%N; [|intros [= <- <-]; auto].
  cbn [accessible quota items]. intros [= <- <-]. cbn [accessible quota items].
  split; [reflexivity|]. split; [reflexivity|].
  apply delete_insert_eq.
Qed.

Lemma checkForLocalStorage_effect_witness :
  let st' := snd (checkForLocalStorage storage_with_test) in
  items storage_with_test !! str "test" = Some (str "mine")
  /\ accessible st' = accessible storage_with_test
  /\ quota st' = quota storage_with_test
  /\ items st' = if true then delete (str "test") (items storage_with_test)
                 else items storage_with_test.
Proof.
  intros st'. split; [reflexivity|].
  apply (checkForLocalStorage_effect storage_with_test st' true). reflexivity.
Defined.

(** X7.  A write the store refuses changes nothing in the store: the sound
    is in memory, the store is exactly as before, and the error is the one
    [setItem] threw. *)
Theorem append_refused (sound : SoundEntry) (p p' : Page) (e : Error) :
  append sound p = (p', Threw e) ->
  sounds p' = sounds p ++ [sound]
  /\ localStorage p' = localStorage p
  /\ hasLocalStorage p = true
  /\ (e = QuotaExceededError \/ e = SecurityError).
Proof.
  unfold append. cbn [hasLocalStorage set_sounds sounds localStorage].
  destruct (hasLocalStorage p); [|discriminate].
  unfold setItem.
  destruct (accessible (localStorage p)).
  - destruct (_ <=? _)%N; [discriminate|]. intros [= <- <-]. cbn. auto.
  - intros [= <- <-]. cbn. auto.
Qed.

Lemma append_refused_witness :
  let p := fst (append clap (fst (script true false false small_storage (str "Record")))) in
  let p' := fst (append snap p) in
  append snap p = (p', Threw QuotaExceededError)
  /\ sounds p' = sounds p ++ [snap]
  /\ localStorage p' = localStorage p
  /\ hasLocalStorage p = true
  /\ (QuotaExceededError = QuotaExceededError \/ QuotaExceededError = SecurityError).
Proof.
  intros p p'. split; [reflexivity|].
  apply (append_refused snap p p' QuotaExceededError). reflexivity.
Defined.

(** X8.  Opening the page writes nothing to the store but the probe: however
    the script ends, every item under a key other than [test] is as it was. *)
Theorem script_keeps_store (mediaDevices bare_empty strict : bool) (storage : Storage)
    (button_text key : jsstring) :
  key <> str "test" ->
  items (localStorage (fst (script mediaDevices bare_empty strict storage button_text)))
    !! key
  = items storage !! key.
Proof.
  intros Hkey. unfold script.
  destruct (checkForLocalStorage storage) as [answer storage'] eqn:Hc.
  match goal with |- context [initUI ?q] =>
    destruct (PageMore.initUI_frame q) as (-> & _) end.
  cbn [localStorage].
  destruct answer.
  - apply PageFacts.checkForLocalStorage_true in Hc as (_ & _ & Hkeys). now apply Hkeys.
  - apply PageFacts.checkForLocalStorage_false in Hc. now subst.
Qed.

Lemma script_keeps_store_witness :
  str "sounds" <> str "test"
  /\ items (localStorage (fst (script true false false corrupted_storage (str "Record"))))
       !! str "sounds"
     = items corrupted_storage !! str "sounds".
Proof.
  split; [discriminate|].
  apply (script_keeps_store true false false corrupted_storage (str "Record") (str "sounds")).
  discriminate.
Defined.

(** X9.  Opened on a store that holds a catalogue written by the script, the
    page ends its start normally with that catalogue in memory, one card for
    each sound in the order of the catalogue, each card with the name of its
    sound and the blob its data decodes to, and the record button bound. *)
Theorem script_shows_catalogue (mediaDevices bare_empty strict : bool)
    (storage : Storage) (button_text : jsstring) (l : list SoundEntry) :
  items storage !! str "sounds" = Some (JSON_stringify l) ->
  fst (checkForLocalStorage storage) = true ->
  Forall valid_sound l ->
  exists p,
    script mediaDevices bare_empty strict storage button_text = (p, Returned)
    /\ sounds p = l
    /\ Forall2 shows l (board p)
    /\ recordBtn_onclick p = true.
Proof.
  intros Hitem Hprobe Hl.
  destruct (PageMore.script_stringified mediaDevices bare_empty strict storage
              button_text l Hitem Hprobe) as (q & Hboard & Hsounds & _ & ->).
  { eapply Forall_impl; [exact Hl|]. now intros ? []. }
  pose proof (PageFacts.render_sounds_sounds l q) as Hs.
  pose proof (PageFacts.render_sounds_valid l q Hl) as Ho.
  destruct (PageMore.render_sounds_board l q) as (cards & Hb & Hcards).
  destruct (render_sounds l q) as [p' o]. cbn [fst snd] in *. subst o.
  eexists. split; [reflexivity|].
  cbn [sounds board recordBtn_onclick set_recordBtn_onclick].
  rewrite Hs, Hb, Hboard. auto.
Qed.

Lemma script_shows_catalogue_witness :
  let storage := {| accessible := true; quota := 5000;
                    items := {[ str "sounds" := JSON_stringify [clap; snap] ]} |} in
  exists p,
    script true false false storage (str "Record") = (p, Returned)
    /\ sounds p = [clap; snap]
    /\ Forall2 shows [clap; snap] (board p)
    /\ recordBtn_onclick p = true.
Proof.
  intros storage.
  apply (script_shows_catalogue true false false storage (str "Record") [clap; snap]).
  - reflexivity.
  - reflexivity.
  - repeat constructor; try apply JSONFacts.wf_string_str; eexists; reflexivity.
Defined.

(** X10.  One sound whose data is not base64 stops the start of the page: the
    whole catalogue is in memory, the board holds the cards of the sounds
    before the bad one only, [base64toBlob] throws [InvalidCharacterError]
    out of [initUI], and the record button is never bound. *)
Theorem script_undecodable (mediaDevices bare_empty strict : bool)
    (storage : Storage) (button_text : jsstring) (good rest : list SoundEntry)
    (bad : SoundEntry) :
  items storage !! str "sounds" = Some (JSON_stringify (good ++ bad :: rest)) ->
  fst (checkForLocalStorage storage) = true ->
  Forall valid_sound good ->
  Forall wf_sound (bad :: rest) ->
  atob (data bad) = Throw InvalidCharacterError ->
  exists p,
    script mediaDevices bare_empty strict storage button_text
    = (p, Threw InvalidCharacterError)
    /\ sounds p = good ++ bad :: rest
    /\ Forall2 shows good (board p)
    /\ recordBtn_onclick p = false.
Proof.
  intros Hitem Hprobe Hgood Hrest Hbad.
  destruct (PageMore.script_stringified mediaDevices bare_empty strict storage
              button_text (good ++ bad :: rest) Hitem Hprobe)
    as (q & Hboard & Hsounds & Hclick & ->).
  { apply Forall_app. split; [|exact Hrest].
    eapply Forall_impl; [exact Hgood|]. now intros ? []. }
  clear Hitem Hprobe Hrest. revert q Hboard Hsounds Hclick.
  enough (Hgen : forall q,
    exists cards,
      render_sounds (good ++ bad :: rest) q
      = (set_board (board q ++ cards) q, Threw InvalidCharacterError)
      /\ Forall2 shows good cards).
  { intros q Hboard Hsounds Hclick. destruct (Hgen q) as (cards & -> & Hcards).
    eexists. split; [reflexivity|].
    cbn [sounds board recordBtn_onclick set_board]. rewrite Hboard. auto. }
  induction Hgood as [|sound good [_ [bytes Hbytes]] _ IH]; intros q.
  - exists []. cbn [app render_sounds].
    unfold base64toBlob. rewrite Hbad. cbn [mbind Completion_bind].
    split; [|constructor]. f_equal. rewrite app_nil_r. now destruct q.
  - cbn [app render_sounds].
    rewrite (CodecFacts.base64toBlob_bytes _ _ Hbytes).
    destruct (IH (createSoundboardButton (name sound)
                    {| blob_type := []; blob_bytes := map to_uint8 bytes |} q))
      as (cards & -> & Hcards).
    eexists (_ :: cards). split.
    + f_equal. unfold createSoundboardButton. cbn. now rewrite <- app_assoc.
    + constructor; [|exact Hcards].
      split; [reflexivity|]. apply (CodecFacts.base64toBlob_bytes _ _ Hbytes).
Qed.

Lemma script_undecodable_witness :
  let storage := {| accessible := true; quota := 5000;
                    items := {[ str "sounds" := JSON_stringify [clap; noise; snap] ]} |} in
  exists p,
    script true false false storage (str "Record") = (p, Threw InvalidCharacterError)
    /\ sounds p = [clap] ++ noise :: [snap]
    /\ Forall2 shows [clap] (board p)
    /\ recordBtn_onclick p = false.
Proof.
  intros storage.
  apply (script_undecodable true false false storage (str "Record") [clap] [snap] noise).
  - reflexivity.
  - reflexivity.
  - repeat constructor; try apply JSONFacts.wf_string_str; eexists; reflexivity.
  - repeat constructor; apply JSONFacts.wf_string_str.
  - reflexivity.
Defined.

Module RunMore.

(** The page a step leaves, event by event. *)
Ltac step_cases H :=
  match type of H with
  | step ?ev ?p = Some (_, _) =>
      destruct ev; cbn [step] in H;
      [ idtac
      | destruct (requests p) eqn:?; [discriminate|]
      | destruct (requests p) eqn:?; [discriminate|]
      | destruct (recorders p !! _) as [?rc|] eqn:?; [|discriminate];
        destruct (rec_stopped _) eqn:?; [discriminate|]
      | destruct (recorders p !! _) as [?rc|] eqn:?; [|discriminate];
        destruct (rec_stopped _) eqn:?; [discriminate|]
      | destruct (readers p !! _) as [?rd|] eqn:?; [|discriminate] ];
      apply (f_equal (option_map fst)) in H; cbn [option_map] in H;
      injection H as H; symmetry in H
  end.

(** What a click leaves of the page besides the flag, the label, the
    background, the pending requests and the state of the recorders. *)
Lemma onclick_frame (p : Page) :
  let p' := fst (if recordBtn_onclick p then onclick p else (p, Returned)) in
  sounds p' = sounds p /\ board p' = board p /\ readers p' = readers p
  /\ localStorage p' = localStorage p /\ hasLocalStorage p' = hasLocalStorage p
  /\ mediaRecorder p' = mediaRecorder p
  /\ length (recorders p') = length (recorders p).
Proof.
  cbn zeta. destruct (recordBtn_onclick p); [|cbn; repeat split].
  unfold onclick.
  destruct (mediaDevices p); cbn [negb]; [|cbn; repeat split].
  destruct (recording p); [|cbn; repeat split].
  destruct (mediaRecorder p) as [r|] eqn:Hr; [|cbn; rewrite ?Hr; repeat split].
  unfold MediaRecorder_stop.
  cbn [recorders strict_stop set_recording set_recordBtn_textContent].
  destruct (recorders p !! r) as [rc|]; [|cbn; rewrite ?Hr; repeat split].
  destruct (rec_active rc); [|destruct (strict_stop p)]; cbn; rewrite ?Hr;
    repeat split; apply length_insert.
Qed.

Lemma step_store (ev : Event) (p p' : Page) (o : Outcome) :
  step ev p = Some (p', o) ->
  accessible (localStorage p') = accessible (localStorage p)
  /\ quota (localStorage p') = quota (localStorage p)
  /\ forall key, key <> str "sounds" ->
       items (localStorage p') !! key = items (localStorage p) !! key.
Proof.
  intros H. step_cases H; subst p'.
  - destruct (onclick_frame p) as (_ & _ & _ & -> & _). auto.
  - cbn. auto.
  - cbn. auto.
  - cbn. auto.
  - cbn. auto.
  - unfold onloadend, append.
    cbn [hasLocalStorage set_sounds set_readers sounds localStorage].
    destruct (hasLocalStorage p); [|cbn; auto].
    unfold setItem. destruct (accessible (localStorage p)) eqn:Hacc; [|cbn; auto].
    destruct (_ <=? _)%N; [|cbn; rewrite Hacc; auto].
    cbn. repeat split; try congruence.
    intros key Hkey. apply lookup_insert_ne. congruence.
Qed.

Lemma step_grows (ev : Event) (p p' : Page) (o : Outcome) :
  step ev p = Some (p', o) ->
  exists l cards,
    sounds p' = sounds p ++ l /\ length l = (if is_LoadEnd ev then 1 else 0)
    /\ board p' = board p ++ cards
    /\ length cards = (if is_RecorderStop ev then 1 else 0).
Proof.
  intros H. step_cases H; subst p'; cbn [is_LoadEnd is_RecorderStop].
  - destruct (onclick_frame p) as (-> & -> & _).
    exists [], []. now rewrite !app_nil_r.
  - exists [], []. cbn. now rewrite !app_nil_r.
  - exists [], []. cbn. now rewrite !app_nil_r.
  - exists [], []. cbn. now rewrite !app_nil_r.
  - eexists [], [_]. cbn. rewrite app_nil_r. auto.
  - eexists [_], []. unfold onloadend. rewrite PageFacts.append_sounds.
    cbn [sounds set_readers]. rewrite app_nil_r. repeat split.
    unfold append. cbn [hasLocalStorage set_sounds set_readers sounds localStorage].
    destruct (hasLocalStorage p); [|reflexivity].
    destruct (setItem _ _ _); reflexivity.
Qed.

Lemma run_grows (evs : list Event) : forall p p',
  run evs p = Some p' -> exists l, sounds p' = sounds p ++ l.
Proof.
  induction evs as [|ev evs IH]; intros p p' Hrun; cbn [run] in Hrun.
  - injection Hrun as <-. exists []. now rewrite app_nil_r.
  - destruct (step ev p) as [[q o]|] eqn:Hstep; [|discriminate].
    destruct (step_grows ev p q o Hstep) as (l1 & _ & Hs1 & _).
    destruct (IH q p' Hrun) as (l2 & Hs2).
    exists (l1 ++ l2). now rewrite Hs2, Hs1, <- app_assoc.
Qed.

End RunMore.

(** X11.  The handlers write to the store under the key [sounds] only:
    after any run of events the store has the access and the quota it had,
    and every item under another key is as it was. *)
Theorem run_keeps_other_keys (evs : list Event) (p p' : Page) (key : jsstring) :
  run evs p = Some p' ->
  key <> str "sounds" ->
  accessible (localStorage p') = accessible (localStorage p)
  /\ quota (localStorage p') = quota (localStorage p)
  /\ items (localStorage p') !! key = items (localStorage p) !! key.
Proof.
  revert p. induction evs as [|ev evs IH]; intros p Hrun Hkey; cbn [run] in Hrun.
  - injection Hrun as <-. auto.
  - destruct (step ev p) as [[q o]|] eqn:Hstep; [|discriminate].
    destruct (RunMore.step_store ev p q o Hstep) as (Ha & Hq & Hk).
    destruct (IH q Hrun Hkey) as (Ha' & Hq' & Hk').
    rewrite Ha', Hq', Hk', Ha, Hq, Hk by exact Hkey. auto.
Qed.

Lemma run_keeps_other_keys_witness :
  let p := fst (script true false false storage_with_test (str "Record")) in
  let evs := [Click; StreamGranted; Click; RecorderStop 0 (Some (str "clap")); LoadEnd 0] in
  let p' := default p (run evs p) in
  run evs p = Some p'
  /\ accessible (localStorage p') = accessible (localStorage p)
  /\ quota (localStorage p') = quota (localStorage p)
  /\ items (localStorage p') !! str "other" = items (localStorage p) !! str "other".
Proof.
  intros p evs p'. split; [vm_compute; reflexivity|].
  apply (run_keeps_other_keys evs p p' (str "other")); [vm_compute; reflexivity|discriminate].
Defined.

(** X12.  Nothing is ever removed or changed in the catalogue or on the
    board: a run of events leaves the sounds it found, followed by one new
    sound for each reader that ended, and the cards it found, followed by
    one new card for each recorder that stopped. *)
Theorem run_appends_only (evs : list Event) (p p' : Page) :
  run evs p = Some p' ->
  exists l cards,
    sounds p' = sounds p ++ l /\ length l = count_events is_LoadEnd evs
    /\ board p' = board p ++ cards /\ length cards = count_events is_RecorderStop evs.
Proof.
  revert p. induction evs as [|ev evs IH]; intros p Hrun; cbn [run] in Hrun.
  - injection Hrun as <-. exists [], []. now rewrite !app_nil_r.
  - destruct (step ev p) as [[q o]|] eqn:Hstep; [|discriminate].
    destruct (RunMore.step_grows ev p q o Hstep) as (l1 & c1 & Hs1 & Hl1 & Hb1 & Hc1).
    destruct (IH q Hrun) as (l2 & c2 & Hs2 & Hl2 & Hb2 & Hc2).
    exists (l1 ++ l2), (c1 ++ c2).
    rewrite Hs2, Hs1, Hb2, Hb1, <- !app_assoc, !length_app, Hl1, Hl2, Hc1, Hc2.
    cbn [count_events]. auto.
Qed.

Lemma run_appends_only_witness :
  let p := fst (script true false false empty_storage (str "Record")) in
  let evs := [Click; StreamGranted; Click; RecorderStop 0 None; LoadEnd 0] in
  let p' := default p (run evs p) in
  run evs p = Some p'
  /\ exists l cards,
       sounds p' = sounds p ++ l /\ length l = count_events is_LoadEnd evs
       /\ board p' = board p ++ cards
       /\ length cards = count_events is_RecorderStop evs.
Proof.
  intros p evs p'. split; [vm_compute; reflexivity|].
  apply (run_appends_only evs p p'). vm_compute; reflexivity.
Defined.

Module InvariantFacts.
Import RunMore.

Lemma base64toBlob_encode (bare_empty : bool) (bytes : list byte) :
  base64toBlob (encode bare_empty bytes)
  = Normal {| blob_type := []; blob_bytes := bytes |}.
Proof.
  rewrite CodecFacts.encode_base64.
  rewrite (CodecFacts.base64toBlob_bytes _ _ (Base64Facts.atob_encode bytes)).
  do 2 f_equal. rewrite map_map. rewrite <- (map_id bytes) at 2.
  apply map_ext. intros x. apply Base64Facts.to_uint8_to_N.
Qed.

(** The sound [onloadend] builds for a reader is shown by the card [onstop]
    made for it. *)
Lemma reader_sound_shown (bare_empty : bool) (rd : Reader) :
  blob_type (reader_blob rd) = [] ->
  shows {| name := reader_name rd;
           data := strip_data_url (readAsDataURL bare_empty (reader_blob rd)) |}
        (card_of_reader rd).
Proof.
  destruct rd as [n [t bytes]]. cbn [reader_blob blob_type]. intros ->.
  split; [reflexivity|]. cbn [data card_of_reader card_sound reader_blob].
  apply (base64toBlob_encode bare_empty bytes).
Qed.

Lemma onloadend_frame (rd : Reader) (q : Page) :
  let p' := fst (onloadend rd q) in
  recording p' = recording q /\ recordBtn_textContent p' = recordBtn_textContent q
  /\ recorders p' = recorders q /\ mediaRecorder p' = mediaRecorder q
  /\ board p' = board q /\ readers p' = readers q
  /\ bare_empty_data_url p' = bare_empty_data_url q.
Proof.
  cbn zeta. unfold onloadend, append.
  cbn [hasLocalStorage set_sounds sounds localStorage].
  destruct (hasLocalStorage q); [|cbn; repeat split].
  destruct (setItem _ _ _); cbn; repeat split.
Qed.

Lemma load_shows (q p' : Page) :
  sounds q = [] -> board q = [] ->
  load q = (p', Returned) -> Forall2 shows (sounds p') (board p').
Proof.
  intros Hs Hb. unfold load.
  assert (Hrender : forall ss p',
    render_sounds (sounds (set_sounds ss q)) (set_sounds ss q) = (p', Returned) ->
    Forall2 shows (sounds p') (board p')).
  { intros ss p1 Hr. cbn [sounds set_sounds] in Hr.
    pose proof (PageFacts.render_sounds_sounds ss (set_sounds ss q)) as Hss.
    destruct (PageMore.render_sounds_board ss (set_sounds ss q)) as (cards & Hcb & Ho).
    rewrite Hr in Hss, Hcb, Ho. cbn [fst snd board sounds set_sounds] in *.
    now rewrite Hss, Hcb, Hb. }
  destruct (hasLocalStorage q).
  - destruct (getItem _ _) as [item|e]; [|discriminate].
    destruct (JSON.parse _) as [v|e]; [|discriminate].
    destruct v as [| [|] | | [|c s] | l | ]; try discriminate; cbn zeta;
      try apply Hrender.
    destruct (as_sounds l) as [ss|]; [|discriminate]. apply Hrender.
  - intros [= <-]. rewrite Hs, Hb. constructor.
Qed.

(** The page the script leaves when it ends normally. *)
Lemma script_start (mediaDevices bare_empty strict : bool) (storage : Storage)
    (button_text : jsstring) (p0 : Page) :
  script mediaDevices bare_empty strict storage button_text = (p0, Returned) ->
  recording p0 = false /\ mediaRecorder p0 = None /\ recorders p0 = []
  /\ requests p0 = 0 /\ readers p0 = []
  /\ recordBtn_textContent p0 = button_text
  /\ Forall2 shows (sounds p0) (board p0).
Proof.
  unfold script. destruct (checkForLocalStorage storage) as [has storage'].
  match goal with |- context [initUI ?q0] => set (q := q0) end.
  intros Hinit.
  pose proof (PageMore.initUI_frame q) as Hframe. cbn zeta in Hframe.
  rewrite Hinit in Hframe. cbn [fst] in Hframe.
  destruct Hframe as (_ & _ & -> & -> & -> & -> & -> & -> & _).
  repeat split.
  unfold initUI in Hinit. destruct (load q) as [p1 o] eqn:Hload.
  destruct o; try (injection Hinit as _ Ho; discriminate Ho).
  injection Hinit as <-. cbn [sounds board set_recordBtn_onclick].
  now apply (load_shows q p1).
Qed.

Lemma step_board_matches (ev : Event) (p p' : Page) (o : Outcome) :
  board_matches p -> step ev p = Some (p', o) -> board_matches p'.
Proof.
  intros (Htypes & cards & Hshows & Hperm) H. step_cases H; subst p'.
  - destruct (onclick_frame p) as (Hs & Hb & Hr & _).
    unfold board_matches. rewrite Hs, Hb, Hr. eauto.
  - unfold board_matches. cbn. eauto.
  - unfold board_matches. cbn. eauto.
  - unfold board_matches. cbn. eauto.
  - unfold board_matches, onstop.
    cbn [fst sounds board readers set_readers createSoundboardButton set_board
         set_recorder set_recorders rec_chunks].
    split.
    + apply Forall_app. split; [exact Htypes|]. repeat constructor.
    + exists cards. split; [exact Hshows|].
      rewrite map_app, app_assoc. cbn [map card_of_reader reader_name reader_blob].
      now rewrite Hperm.
  - destruct (onloadend_frame rd (set_readers (delete k (readers p)) p))
      as (_ & _ & _ & _ & Hb & Hr & _).
    unfold board_matches. rewrite Hb, Hr.
    unfold onloadend. rewrite PageFacts.append_sounds.
    cbn [sounds board readers set_readers bare_empty_data_url].
    split; [now apply Forall_delete|].
    exists (cards ++ [card_of_reader rd]). split.
    + apply Forall2_app; [exact Hshows|]. constructor; [|constructor].
      apply reader_sound_shown.
      eapply (Forall_lookup_1 _ _ _ _ Htypes); eassumption.
    + rewrite Hperm. rewrite <- app_assoc. apply Permutation_app_head.
      cbn [app]. change (card_of_reader rd :: map card_of_reader (delete k (readers p)))
        with (map card_of_reader (rd :: delete k (readers p))).
      apply Permutation_map. now apply delete_Permutation.
Qed.

Lemma onclick_recorders_ok (p : Page) :
  Forall recorder_ok (recorders p) ->
  Forall recorder_ok
    (recorders (fst (if recordBtn_onclick p then onclick p else (p, Returned)))).
Proof.
  intros Hall. destruct (recordBtn_onclick p); [|exact Hall].
  unfold onclick.
  destruct (mediaDevices p); cbn [negb]; [|exact Hall].
  destruct (recording p); [|exact Hall].
  destruct (mediaRecorder p) as [r|]; [|exact Hall].
  unfold MediaRecorder_stop.
  cbn [recorders strict_stop set_recording set_recordBtn_textContent].
  destruct (recorders p !! r) as [rc|] eqn:Hrc; [|exact Hall].
  pose proof (Forall_lookup_1 _ _ _ _ Hall Hrc) as [Hlive Hstop].
  destruct (rec_active rc); [|destruct (strict_stop p); exact Hall].
  cbn. apply Forall_insert; [exact Hall|]. split; cbn; auto.
Qed.

Lemma step_recorders_ok (ev : Event) (p p' : Page) (o : Outcome) :
  recorders_ok p -> step ev p = Some (p', o) -> recorders_ok p'.
Proof.
  intros (Hall & Hlast) H. step_cases H; subst p'.
  - split; [now apply onclick_recorders_ok|].
    destruct (onclick_frame p) as (_ & _ & _ & _ & _ & -> & ->). exact Hlast.
  - split; cbn.
    + apply Forall_app. split; [exact Hall|]. repeat constructor. discriminate.
    + intros r [= <-]. rewrite length_app. cbn. lia.
  - split; cbn; assumption.
  - pose proof (Forall_lookup_1 _ _ _ _ Hall ltac:(eassumption)) as [Hlive Hstop].
    split; cbn.
    + apply Forall_insert; [exact Hall|]. split; cbn; assumption.
    + intros r' Hr'. rewrite length_insert. now apply Hlast.
  - split; cbn.
    + apply Forall_insert; [exact Hall|]. split; cbn; auto.
    + intros r' Hr'. rewrite length_insert. now apply Hlast.
  - destruct (onloadend_frame rd (set_readers (delete k (readers p)) p))
      as (_ & _ & Hrc & Hmr & _).
    unfold recorders_ok. rewrite Hrc, Hmr. split; assumption.
Qed.

Lemma step_label_ok (initial : jsstring) (ev : Event) (p p' : Page) (o : Outcome) :
  label_ok initial p -> step ev p = Some (p', o) -> label_ok initial p'.
Proof.
  intros Hok H. step_cases H; subst p'.
  - destruct (recordBtn_onclick p); [|exact Hok].
    revert Hok. unfold onclick, label_ok.
    destruct (mediaDevices p); cbn [negb fst]; [|trivial].
    destruct (recording p) eqn:Hrec; [|intros _; cbn; reflexivity].
    destruct (mediaRecorder p) as [r|]; [|cbn [fst]; now rewrite Hrec].
    intros _. unfold MediaRecorder_stop.
    cbn [recorders strict_stop set_recording set_recordBtn_textContent].
    destruct (recorders p !! r) as [rc|];
      [destruct (rec_active rc); [|destruct (strict_stop p)]|]; cbn; auto.
  - exact Hok.
  - exact Hok.
  - exact Hok.
  - exact Hok.
  - destruct (onloadend_frame rd (set_readers (delete k (readers p)) p))
      as (Hrec & Htext & _).
    unfold label_ok. rewrite Hrec, Htext. exact Hok.
Qed.

Lemma run_invariant (I : Page -> Prop) :
  (forall ev p p' o, I p -> step ev p = Some (p', o) -> I p') ->
  forall evs p p', I p -> run evs p = Some p' -> I p'.
Proof.
  intros Hstep evs. induction evs as [|ev evs IH]; intros p p' Hp Hrun; cbn [run] in Hrun.
  - now injection Hrun as <-.
  - destruct (step ev p) as [[q o]|] eqn:Hs; [|discriminate].
    eapply IH; [|exact Hrun]. eapply Hstep; eassumption.
Qed.

End InvariantFacts.

(** X13.  At every moment of a session each card of the board is the card of
    exactly one sound of the catalogue or of one recording whose reader has
    not ended yet, with the name of that sound and the bytes its data decodes
    to; the order on the board is that of the stops, the order of the
    catalogue that of the readers' ends. *)
Theorem board_matches_sounds (mediaDevices bare_empty strict : bool) (storage : Storage)
    (button_text : jsstring) (evs : list Event) (p0 p : Page) :
  script mediaDevices bare_empty strict storage button_text = (p0, Returned) ->
  run evs p0 = Some p ->
  exists cards,
    Forall2 shows (sounds p) cards
    /\ board p ≡ₚ cards ++ map card_of_reader (readers p).
Proof.
  intros Hscript Hrun.
  apply InvariantFacts.script_start in Hscript as (_ & _ & _ & _ & Hrd & _ & Hshows).
  assert (Hinit : board_matches p0).
  { split; [rewrite Hrd; constructor|].
    exists (board p0). rewrite Hrd. cbn [map]. now rewrite app_nil_r. }
  apply (InvariantFacts.run_invariant board_matches
           InvariantFacts.step_board_matches evs p0 p Hinit Hrun).
Qed.

Lemma board_matches_sounds_witness :
  let p0 := fst (script true false false empty_storage (str "Record")) in
  let evs := [Click; StreamGranted; Click; RecorderStop 0 (Some (str "a"));
              Click; StreamGranted; Click; RecorderStop 1 (Some (str "b"));
              LoadEnd 1; LoadEnd 0] in
  let p := default p0 (run evs p0) in
  exists cards,
    Forall2 shows (sounds p) cards
    /\ board p ≡ₚ cards ++ map card_of_reader (readers p).
Proof.
  intros p0 evs p.
  apply (board_matches_sounds true false false empty_storage (str "Record") evs p0 p);
    vm_compute; reflexivity.
Defined.

(** X14.  In every session each recorder holds its microphone stream until
    its [stop] event has been handled and is inactive from then on, and
    [mediaRecorder] is [undefined] or the recorder created last. *)
Theorem recorders_stay_ok (mediaDevices bare_empty strict : bool) (storage : Storage)
    (button_text : jsstring) (evs : list Event) (p0 p : Page) :
  script mediaDevices bare_empty strict storage button_text = (p0, Returned) ->
  run evs p0 = Some p ->
  Forall recorder_ok (recorders p)
  /\ forall r, mediaRecorder p = Some r -> S r = length (recorders p).
Proof.
  intros Hscript Hrun.
  apply InvariantFacts.script_start in Hscript as (_ & Hmr & Hrc & _).
  assert (Hinit : recorders_ok p0).
  { split; [rewrite Hrc; constructor|]. rewrite Hmr. discriminate. }
  apply (InvariantFacts.run_invariant recorders_ok
           InvariantFacts.step_recorders_ok evs p0 p Hinit Hrun).
Qed.

Lemma recorders_stay_ok_witness :
  let p0 := fst (script true false true empty_storage (str "Record")) in
  let evs := [Click; StreamGranted; Click; Click; Click; RecorderStop 0 None;
              StreamGranted] in
  let p := default p0 (run evs p0) in
  Forall recorder_ok (recorders p)
  /\ forall r, mediaRecorder p = Some r -> S r = length (recorders p).
Proof.
  intros p0 evs p.
  apply (recorders_stay_ok true false true empty_storage (str "Record") evs p0 p);
    vm_compute; reflexivity.
Defined.

(** X15.  In every session the label of the record button tells the flag:
    it reads "Stop Recording" whenever the flag is set, and otherwise the
    text the document gave it or "Record New Sound". *)
Theorem label_tells_flag (mediaDevices bare_empty strict : bool) (storage : Storage)
    (button_text : jsstring) (evs : list Event) (p0 p : Page) :
  script mediaDevices bare_empty strict storage button_text = (p0, Returned) ->
  run evs p0 = Some p ->
  if recording p then recordBtn_textContent p = str "Stop Recording"
  else recordBtn_textContent p = button_text
       \/ recordBtn_textContent p = str "Record New Sound".
Proof.
  intros Hscript Hrun.
  apply InvariantFacts.script_start in Hscript as (Hrec & _ & _ & _ & _ & Htext & _).
  assert (Hinit : label_ok button_text p0).
  { unfold label_ok. rewrite Hrec. now left. }
  apply (InvariantFacts.run_invariant (label_ok button_text)
           (InvariantFacts.step_label_ok button_text) evs p0 p Hinit Hrun).
Qed.

Lemma label_tells_flag_witness :
  let p0 := fst (script true false false empty_storage (str "Record")) in
  let evs := [Click; StreamGranted; Click; Click] in
  let p := default p0 (run evs p0) in
  if recording p then recordBtn_textContent p = str "Stop Recording"
  else recordBtn_textContent p = str "Record"
       \/ recordBtn_textContent p = str "Record New Sound".
Proof.
  intros p0 evs p.
  apply (label_tells_flag true false false empty_storage (str "Record") evs p0 p);
    vm_compute; reflexivity.
Defined.

Module RecordingFacts.

Lemma alphabet_code_unit i : code_unit (Base64.alphabet i).
Proof.
  unfold code_unit, Base64.alphabet.
  Base64Facts.split_tests; lia.
Qed.

Lemma encode_wf (bs : list byte) : wf_string (Base64.encode bs).
Proof.
  unfold wf_string.
  induction bs as [|a|a b|a b c l IH] using Base64Facts.list_ind3; cbn [Base64.encode];
    repeat (constructor; try apply alphabet_code_unit); try exact IH;
    unfold code_unit, Base64.pad; lia.
Qed.

(** The chunks a recorder receives are kept in the order of their arrival,
    and its [stop] event turns them into one card and one reader. *)
Lemma chunks_then_stop (r : nat) (answer : option jsstring) (chunks : list Blob) :
  forall (p : Page) (rc : Recorder),
    recorders p !! r = Some rc ->
    rec_stopped rc = false ->
    exists p',
      run (map (DataAvailable r) chunks ++ [RecorderStop r answer]) p = Some p'
      /\ board p' = board p
                    ++ [{| card_text := prompt_name answer;
                           card_sound := Blob_of_blobs (rec_chunks rc ++ chunks) |}]
      /\ readers p' = readers p
                      ++ [{| reader_name := prompt_name answer;
                             reader_blob := Blob_of_blobs (rec_chunks rc ++ chunks) |}]
      /\ sounds p' = sounds p
      /\ localStorage p' = localStorage p
      /\ hasLocalStorage p' = hasLocalStorage p
      /\ bare_empty_data_url p' = bare_empty_data_url p.
Proof.
  induction chunks as [|chunk chunks IH]; intros p rc Hrc Hstop.
  - cbn [map app run step]. rewrite Hrc, Hstop. cbn [onstop run rec_chunks].
    eexists. split; [reflexivity|]. rewrite app_nil_r. cbn. repeat split.
  - cbn [map app run step]. rewrite Hrc, Hstop. cbn [ondataavailable].
    match goal with |- context [set_recorder r ?rc1 p] =>
      destruct (IH (set_recorder r rc1 p) rc1) as (p' & Hrun & Hb & Hrd & Hs & Hl & Hh & Hbe)
    end.
    + cbn [recorders set_recorder set_recorders].
      apply list_lookup_insert_eq. eapply lookup_lt_Some, Hrc.
    + exact Hstop.
    + exists p'. split; [exact Hrun|].
      cbn [rec_chunks] in Hb, Hrd. rewrite <- !app_assoc in Hb, Hrd.
      rewrite Hb, Hrd, Hs, Hl, Hh, Hbe. cbn. repeat split.
Qed.

End RecordingFacts.

(** X16.  A recording becomes one card: the chunks a recorder delivers, in
    the order of their arrival after those it already holds, make up the
    blob of the card and of the reader that its [stop] event creates; the
    catalogue and the store are not touched yet. *)
Theorem recording_becomes_card (r : nat) (answer : option jsstring) (chunks : list Blob)
    (p : Page) (rc : Recorder) :
  recorders p !! r = Some rc ->
  rec_stopped rc = false ->
  exists p',
    run (map (DataAvailable r) chunks ++ [RecorderStop r answer]) p = Some p'
    /\ board p' = board p
                  ++ [{| card_text := prompt_name answer;
                         card_sound := Blob_of_blobs (rec_chunks rc ++ chunks) |}]
    /\ readers p' = readers p
                    ++ [{| reader_name := prompt_name answer;
                           reader_blob := Blob_of_blobs (rec_chunks rc ++ chunks) |}]
    /\ sounds p' = sounds p
    /\ localStorage p' = localStorage p.
Proof.
  intros Hrc Hstop.
  destruct (RecordingFacts.chunks_then_stop r answer chunks p rc Hrc Hstop)
    as (p' & Hrun & Hb & Hrd & Hs & Hl & _).
  exists p'. auto.
Qed.

Lemma recording_becomes_card_witness :
  let p0 := fst (script true false false empty_storage (str "Record")) in
  let p := default p0 (run [Click; StreamGranted] p0) in
  let rc := {| rec_active := true; rec_stopped := false; rec_chunks := [];
               rec_stream_live := true |} in
  let chunks := [{| blob_type := str "audio/webm"; blob_bytes := [x52; x49] |};
                 {| blob_type := str "audio/webm"; blob_bytes := [x46; x46] |}] in
  recorders p !! 0 = Some rc
  /\ exists p',
       run (map (DataAvailable 0) chunks ++ [RecorderStop 0 None]) p = Some p'
       /\ board p' = board p
                     ++ [{| card_text := prompt_name None;
                            card_sound := Blob_of_blobs (rec_chunks rc ++ chunks) |}]
       /\ readers p' = readers p
                       ++ [{| reader_name := prompt_name None;
                              reader_blob := Blob_of_blobs (rec_chunks rc ++ chunks) |}]
       /\ sounds p' = sounds p
       /\ localStorage p' = localStorage p.
Proof.
  intros p0 p rc chunks. split; [vm_compute; reflexivity|].
  apply (recording_becomes_card 0 None chunks p rc); vm_compute; reflexivity.
Defined.

(** X17.  From the microphone to the next visit: when a recorder's chunks
    arrive, its [stop] event is handled, the reader ends and the store
    accepts the write, the page opened anew on that store shows the earlier
    sounds and, last, a card with the name given at the prompt that plays
    exactly the bytes of the chunks, in the order of their arrival. *)
Theorem recording_survives_reload (mediaDevices bare_empty strict : bool)
    (button_text : jsstring) (r : nat) (answer : option jsstring) (chunks : list Blob)
    (p p1 p2 : Page) (rc : Recorder) :
  hasLocalStorage p = true ->
  Forall valid_sound (sounds p) ->
  wf_string (prompt_name answer) ->
  recorders p !! r = Some rc ->
  rec_stopped rc = false ->
  run (map (DataAvailable r) chunks ++ [RecorderStop r answer]) p = Some p1 ->
  step (LoadEnd (length (readers p))) p1 = Some (p2, Returned) ->
  fst (checkForLocalStorage (localStorage p2)) = true ->
  exists p' cards,
    script mediaDevices bare_empty strict (localStorage p2) button_text = (p', Returned)
    /\ Forall2 shows (sounds p) cards
    /\ board p'
       = cards ++ [{| card_text := prompt_name answer;
                      card_sound :=
                        {| blob_type := [];
                           blob_bytes := concat (map blob_bytes (rec_chunks rc ++ chunks)) |} |}].
Proof.
  intros Hhas Hvalid Hname Hrc Hstop Hrun Hload Hprobe.
  destruct (RecordingFacts.chunks_then_stop r answer chunks p rc Hrc Hstop)
    as (q & Hq & _ & Hrd & Hs & _ & Hh & _).
  rewrite Hrun in Hq. injection Hq as <-.
  cbn [step] in Hload. rewrite Hrd, list_lookup_middle in Hload by reflexivity.
  injection Hload as Hload. unfold onloadend in Hload.
  cbn [reader_name reader_blob bare_empty_data_url set_readers] in Hload.
  set (bytes := concat (map blob_bytes (rec_chunks rc ++ chunks))) in *.
  change (strip_data_url (readAsDataURL (bare_empty_data_url p1)
                            (Blob_of_blobs (rec_chunks rc ++ chunks))))
    with (encode (bare_empty_data_url p1) bytes) in Hload.
  rewrite CodecFacts.encode_base64 in Hload.
  set (sound := {| name := prompt_name answer; data := Base64.encode bytes |}) in *.
  apply PageFacts.append_Returned in Hload as (Hs2 & _ & _ & Hitems);
    [|cbn [hasLocalStorage set_readers]; congruence].
  cbn [sounds localStorage set_readers] in Hs2, Hitems. rewrite Hs in Hs2, Hitems.
  assert (Hsound : valid_sound sound).
  { split; [split; [exact Hname|apply RecordingFacts.encode_wf]|].
    eexists. apply Base64Facts.atob_encode. }
  assert (Hall : Forall valid_sound (sounds p ++ [sound])).
  { apply Forall_app. split; [exact Hvalid|]. now constructor. }
  destruct (PageMore.script_stringified mediaDevices bare_empty strict (localStorage p2)
              button_text (sounds p ++ [sound])) as (q0 & Hboard & _ & _ & ->).
  { rewrite Hitems. apply lookup_insert_eq. }
  { exact Hprobe. }
  { eapply Forall_impl; [exact Hall|]. now intros ? []. }
  pose proof (PageFacts.render_sounds_valid _ q0 Hall) as Ho.
  destruct (PageMore.render_sounds_board (sounds p ++ [sound]) q0) as (cs & Hb & Hcs).
  destruct (render_sounds (sounds p ++ [sound]) q0) as [p' o]. cbn [fst snd] in *. subst o.
  apply Forall2_app_inv_l in Hcs as (cards & last & Hcards & Hlast & ->).
  apply Forall2_cons_inv_l in Hlast as (card & nil & [Htext Hblob] & Hnil & ->).
  apply Forall2_nil_inv_l in Hnil as ->.
  exists (set_recordBtn_onclick true p'), cards. split; [reflexivity|].
  split; [exact Hcards|].
  cbn [board set_recordBtn_onclick]. rewrite Hb, Hboard. cbn [app]. do 2 f_equal.
  destruct card as [text blob]. cbn [card_text card_sound name data sound] in *.
  subst text. f_equal.
  rewrite (CodecFacts.base64toBlob_bytes _ _ (Base64Facts.atob_encode bytes)) in Hblob.
  injection Hblob as <-. f_equal. rewrite map_map.
  rewrite <- (map_id bytes) at 2. apply map_ext. intros x.
  apply Base64Facts.to_uint8_to_N.
Qed.

Lemma recording_survives_reload_witness :
  let p0 := fst (script true false false empty_storage (str "Record")) in
  let p := default p0 (run [Click; StreamGranted; Click] p0) in
  let rc := {| rec_active := false; rec_stopped := false; rec_chunks := [];
               rec_stream_live := true |} in
  let chunks := [{| blob_type := str "audio/webm"; blob_bytes := [x52; x49] |};
                 {| blob_type := str "audio/webm"; blob_bytes := [x46; x46] |}] in
  let answer := Some (str "clap") in
  let p1 := default p (run (map (DataAvailable 0) chunks ++ [RecorderStop 0 answer]) p) in
  let p2 := fst (default (p1, Returned) (step (LoadEnd 0) p1)) in
  exists p' cards,
    script true false false (localStorage p2) (str "Record") = (p', Returned)
    /\ Forall2 shows (sounds p) cards
    /\ board p'
       = cards ++ [{| card_text := prompt_name answer;
                      card_sound :=
                        {| blob_type := [];
                           blob_bytes := concat (map blob_bytes (rec_chunks rc ++ chunks)) |} |}].
Proof.
  intros p0 p rc chunks answer p1 p2.
  apply (recording_survives_reload true false false (str "Record") 0 answer chunks
           p p1 p2 rc).
  - vm_compute; reflexivity.
  - vm_compute; constructor.
  - apply JSONFacts.wf_string_str.
  - vm_compute; reflexivity.
  - vm_compute; reflexivity.
  - vm_compute; reflexivity.
  - vm_compute; reflexivity.
  - vm_compute; reflexivity.
Defined.

Module DOMFacts.

Lemma special_false (attr : jsstring) :
  DOM.special attr = false ->
  attr <> str "innerText" /\ attr <> str "innerHTML" /\ attr <> str "textContent"
  /\ attr <> str "onclick" /\ attr <> str "onkeydown".
Proof.
  unfold DOM.special. intros H.
  repeat (apply orb_false_iff in H as [H ?]).
  repeat match goal with
         | Hb : bool_decide _ = false |- _ => apply bool_decide_eq_false in Hb
         end.
  auto.
Qed.

(** One entry that is none of the five names and has a name that is
    refused. *)
Lemma set_attributes_bad (attr : jsstring) (value : DOM.Value)
    (rest : list (jsstring * DOM.Value)) (el : DOM.Element) :
  DOM.special attr = false ->
  DOM.plain_name attr = false ->
  DOM.bad_name attr = true ->
  DOM.set_attributes ((attr, value) :: rest) el = Some (el, Throw InvalidCharacterError).
Proof.
  intros Hsp Hplain Hbad. apply special_false in Hsp as (H1 & H2 & H3 & H4 & H5).
  cbn [DOM.set_attributes]. repeat case_decide; try contradiction.
  now rewrite Hplain, Hbad.
Qed.

Ltac bool_to_prop H :=
  repeat first [ rewrite orb_true_iff in H | rewrite andb_true_iff in H
               | rewrite N.leb_le in H | rewrite N.eqb_eq in H ].

(** No name is both plain and refused. *)
Lemma bad_name_not_plain (name : jsstring) :
  DOM.bad_name name = true -> DOM.plain_name name = false.
Proof.
  destruct name as [|c rest]; [reflexivity|]. intros Hbad.
  apply not_true_is_false. intros Hplain.
  cbn [DOM.plain_name] in Hplain. apply andb_true_iff in Hplain as [Hc Hrest].
  cbn [DOM.bad_name existsb] in Hbad. apply orb_true_iff in Hbad as [Hbad|Hbad].
  - unfold DOM.is_whitespace, DOM.is_letter in *.
    bool_to_prop Hbad. bool_to_prop Hc. lia.
  - apply existsb_exists in Hbad as (d & Hin & Hd).
    rewrite forallb_forall in Hrest. specialize (Hrest d Hin).
    unfold DOM.is_whitespace, DOM.is_letter, DOM.is_digit in *.
    bool_to_prop Hd. bool_to_prop Hrest. lia.
Qed.

(** What one simple entry does to the element. *)
Lemma set_attributes_simple_cons (entry : jsstring * DOM.Value) (el : DOM.Element) :
  DOM.simple entry = true ->
  exists el1 a,
    (forall rest, DOM.set_attributes (entry :: rest) el = DOM.set_attributes rest el1)
    /\ DOM.tag el1 = DOM.tag el
    /\ DOM.assignments el1 = DOM.assignments el ++ [a]
    /\ (forall attr value, a = DOM.SetAttribute attr value <->
          entry = (attr, value) /\ DOM.special attr = false)
    /\ DOM.childNodes el1
       = match DOM.text_given [entry] with
         | Some s => DOM.text_children s
         | None => DOM.childNodes el
         end.
Proof.
  destruct entry as [attr value]. unfold DOM.simple, DOM.text_given, DOM.special.
  cbn [DOM.set_attributes omap list_omap]. intros Hsimple.
  repeat case_decide; try discriminate.
  - destruct value as [s|b]; [|discriminate].
    do 2 eexists. split; [reflexivity|].
    split; [reflexivity|split; [reflexivity|split; [|reflexivity]]].
    intros attr' value'. split; [discriminate|].
    intros [[= <- <-] Hsp].
    rewrite (bool_decide_eq_true_2 (attr = str "textContent")) in Hsp by assumption.
    now rewrite !orb_true_r in Hsp.
  - exists (DOM.assigned (DOM.Onclick value) el). eexists. split; [reflexivity|].
    split; [reflexivity|split; [reflexivity|split; [|reflexivity]]].
    intros attr' value'. split; [discriminate|].
    intros [[= <- <-] Hsp].
    rewrite (bool_decide_eq_true_2 (attr = str "onclick")) in Hsp by assumption.
    now rewrite !orb_true_r in Hsp.
  - exists (DOM.assigned (DOM.Onkeydown value) el). eexists. split; [reflexivity|].
    split; [reflexivity|split; [reflexivity|split; [|reflexivity]]].
    intros attr' value'. split; [discriminate|].
    intros [[= <- <-] Hsp].
    rewrite (bool_decide_eq_true_2 (attr = str "onkeydown")) in Hsp by assumption.
    now rewrite !orb_true_r in Hsp.
  - exists (DOM.assigned (DOM.SetAttribute attr value) el). eexists.
    split; [intros rest; now rewrite Hsimple|].
    split; [reflexivity|split; [reflexivity|split; [|reflexivity]]].
    intros attr' value'. split.
    + intros [= <- <-]. split; [reflexivity|].
      now rewrite !bool_decide_eq_false_2 by assumption.
    + now intros [[= <- <-] _].
Qed.

Lemma text_given_cons (entry : jsstring * DOM.Value) (attributes : list (jsstring * DOM.Value)) :
  DOM.text_given (entry :: attributes)
  = match DOM.text_given attributes with
    | Some s => Some s
    | None => DOM.text_given [entry]
    end.
Proof.
  unfold DOM.text_given. change (entry :: attributes) with ([entry] ++ attributes).
  rewrite omap_app. apply last_app.
Qed.

Lemma text_children_elements (s : jsstring) :
  DOM.elements_of (DOM.text_children s) = []
  /\ forall tag assignments,
       DOM.text_of {| DOM.tag := tag; DOM.assignments := assignments;
                      DOM.childNodes := DOM.text_children s |} = Some s.
Proof.
  destruct s as [|c s]; [split; reflexivity|]. split; [reflexivity|].
  intros tag assignments. unfold DOM.text_of. cbn. now rewrite app_nil_r.
Qed.

(** The element that simple entries make of one: the rest of the loop goes
    on from it. *)
Lemma set_attributes_simple (attributes : list (jsstring * DOM.Value)) (el0 : DOM.Element) :
  forallb DOM.simple attributes = true ->
  exists el,
    (forall rest, DOM.set_attributes (attributes ++ rest) el0 = DOM.set_attributes rest el)
    /\ DOM.tag el = DOM.tag el0
    /\ length (DOM.assignments el) = length (DOM.assignments el0) + length attributes
    /\ (forall attr value,
          In (DOM.SetAttribute attr value) (DOM.assignments el) <->
          In (DOM.SetAttribute attr value) (DOM.assignments el0)
          \/ (In (attr, value) attributes /\ DOM.special attr = false))
    /\ DOM.childNodes el
       = match DOM.text_given attributes with
         | Some s => DOM.text_children s
         | None => DOM.childNodes el0
         end.
Proof.
  revert el0. induction attributes as [|entry attributes IH]; intros el0 Hsimple.
  - exists el0. split; [reflexivity|]. split; [reflexivity|]. cbn. split; [lia|].
    split; [|reflexivity]. intros attr value. tauto.
  - cbn [forallb] in Hsimple. apply andb_true_iff in Hsimple as [Hentry Hatt].
    destruct (set_attributes_simple_cons entry el0 Hentry)
      as (el1 & a & Hcons & Htag1 & Hass1 & Hcases & Hch1).
    destruct (IH el1 Hatt) as (el & Hrest & Htag & Hlen & Hset & Hch).
    exists el. split; [|split; [|split; [|split]]].
    + intros rest. cbn [app]. rewrite Hcons. apply Hrest.
    + congruence.
    + rewrite Hlen, Hass1, length_app. cbn. lia.
    + intros attr value. rewrite Hset, Hass1, in_app_iff. cbn [In].
      specialize (Hcases attr value). split.
      * intros [[H|[H|[]]]|[H1 H2]]; auto.
        apply Hcases in H as [-> Hsp]. auto.
      * intros [H|[[H|H] Hsp]]; auto.
        left. right. left. apply Hcases. auto.
    + rewrite Hch, text_given_cons, Hch1.
      now destruct (DOM.text_given attributes).
Qed.

(** The document after [createElement] with a parent that is a node. *)
Lemma createElement_nodes (parent : nat) (node el : DOM.Element) (tag : jsstring)
    (attributes : list (jsstring * DOM.Value)) (doc : list DOM.Element) :
  DOM.plain_name tag = true ->
  DOM.set_attributes attributes
    {| DOM.tag := tag; DOM.assignments := []; DOM.childNodes := [] |}
  = Some (el, Normal tt) ->
  doc !! parent = Some node ->
  let doc' := <[parent := DOM.appendChild (length doc) node]> (doc ++ [el]) in
  DOM.createElement (Some parent) tag attributes doc = Some (doc', Normal (length doc))
  /\ length doc' = S (length doc)
  /\ doc' !! parent = Some (DOM.appendChild (length doc) node)
  /\ doc' !! length doc = Some el
  /\ forall k, k <> parent -> k < length doc -> doc' !! k = doc !! k.
Proof.
  intros Hplain Hset Hparent doc'.
  pose proof (lookup_lt_Some _ _ _ Hparent) as Hlt.
  split; [|split; [|split; [|split]]].
  - unfold DOM.createElement. now rewrite Hplain, Hset, Hparent.
  - subst doc'. rewrite length_insert, length_app. cbn. lia.
  - subst doc'. apply list_lookup_insert_eq. rewrite length_app. lia.
  - subst doc'. rewrite list_lookup_insert_ne by lia.
    now rewrite list_lookup_middle.
  - intros k Hk Hklt. subst doc'. rewrite list_lookup_insert_ne by congruence.
    now rewrite lookup_app_l.
Qed.

End DOMFacts.

(** X18.  A name that [setAttribute] refuses aborts [createElement]: when
    the entries before it are applied and the name is none of the five that
    are properties, the call throws an [InvalidCharacterError]; the entries
    after it are not applied, whatever they are, and the new element is not
    appended: the document is the one before the call, followed by the
    detached element, and every node of it is as it was. *)
Theorem createElement_refused_name (parent : option nat) (tag attr : jsstring)
    (value : DOM.Value) (before rest : list (jsstring * DOM.Value))
    (doc : list DOM.Element) :
  DOM.plain_name tag = true ->
  forallb DOM.simple before = true ->
  DOM.special attr = false ->
  DOM.bad_name attr = true ->
  exists el,
    DOM.createElement parent tag (before ++ (attr, value) :: rest) doc
    = Some (doc ++ [el], Throw InvalidCharacterError)
    /\ DOM.tag el = tag
    /\ length (DOM.assignments el) = length before
    /\ (forall attr' value',
          In (DOM.SetAttribute attr' value') (DOM.assignments el) <->
          In (attr', value') before /\ DOM.special attr' = false)
    /\ (forall k node, doc !! k = Some node -> (doc ++ [el]) !! k = Some node).
Proof.
  intros Hplain Hbefore Hsp Hbad.
  set (el0 := {| DOM.tag := tag; DOM.assignments := []; DOM.childNodes := [] |}).
  destruct (DOMFacts.set_attributes_simple before el0 Hbefore)
    as (el & Hrest & Htag & Hlen & Hset & _).
  exists el. split; [|split; [exact Htag|split; [exact Hlen|split]]].
  - unfold DOM.createElement. rewrite Hplain. fold el0. rewrite Hrest.
    rewrite DOMFacts.set_attributes_bad; auto using DOMFacts.bad_name_not_plain.
  - intros attr' value'. rewrite Hset. cbn [DOM.assignments el0 In]. tauto.
  - intros k node Hk. now apply lookup_app_l_Some.
Qed.

Lemma createElement_refused_name_witness :
  let board := {| DOM.tag := str "div"; DOM.assignments := []; DOM.childNodes := [] |} in
  let attributes := [(str "title", DOM.VString (str "ok"));
                     (str "a b", DOM.VString (str "x"));
                     (str "id", DOM.VString (str "z"))] in
  exists el,
    DOM.createElement (Some 0) (str "span") attributes [board]
    = Some ([board] ++ [el], Throw InvalidCharacterError)
    /\ DOM.tag el = str "span"
    /\ length (DOM.assignments el) = 1
    /\ (forall attr' value',
          In (DOM.SetAttribute attr' value') (DOM.assignments el) <->
          In (attr', value') [(str "title", DOM.VString (str "ok"))]
          /\ DOM.special attr' = false)
    /\ (forall k node, [board] !! k = Some node -> ([board] ++ [el]) !! k = Some node).
Proof.
  intros board attributes.
  apply (createElement_refused_name (Some 0) (str "span") (str "a b")
           (DOM.VString (str "x")) [(str "title", DOM.VString (str "ok"))]
           [(str "id", DOM.VString (str "z"))] [board]); reflexivity.
Defined.

(** X19.  With a tag that is a plain name, entries that are simple and a
    parent that is a node of the document, [createElement] returns a new
    node.  The node has the tag given, one assignment for each entry, and a
    call of [setAttribute] for exactly the entries whose name is none of the
    five; it has no element child, and its text is the string given last
    for [textContent], if any.  The node is the last child of the parent,
    and the other nodes are as they were. *)
Theorem createElement_appends (parent : nat) (node : DOM.Element) (tag : jsstring)
    (attributes : list (jsstring * DOM.Value)) (doc : list DOM.Element) :
  DOM.plain_name tag = true ->
  forallb DOM.simple attributes = true ->
  doc !! parent = Some node ->
  exists doc' el,
    DOM.createElement (Some parent) tag attributes doc = Some (doc', Normal (length doc))
    /\ length doc' = S (length doc)
    /\ doc' !! length doc = Some el
    /\ DOM.tag el = tag
    /\ length (DOM.assignments el) = length attributes
    /\ (forall attr value,
          In (DOM.SetAttribute attr value) (DOM.assignments el) <->
          In (attr, value) attributes /\ DOM.special attr = false)
    /\ DOM.elements_of (DOM.childNodes el) = []
    /\ DOM.text_of el = Some (default [] (DOM.text_given attributes))
    /\ doc' !! parent = Some (DOM.appendChild (length doc) node)
    /\ forall k, k <> parent -> k < length doc -> doc' !! k = doc !! k.
Proof.
  intros Hplain Hsimple Hparent.
  set (el0 := {| DOM.tag := tag; DOM.assignments := []; DOM.childNodes := [] |}).
  destruct (DOMFacts.set_attributes_simple attributes el0 Hsimple)
    as (el & Hrest & Htag & Hlen & Hset & Hch).
  assert (Hfill : DOM.set_attributes attributes el0 = Some (el, Normal tt)).
  { rewrite <- (app_nil_r attributes) at 1. now rewrite Hrest. }
  destruct (DOMFacts.createElement_nodes parent node el tag attributes doc
              Hplain Hfill Hparent) as (Hcall & Hlen' & Hpar & Hnew & Hother).
  do 2 eexists. split; [exact Hcall|]. split; [exact Hlen'|].
  split; [exact Hnew|]. split; [exact Htag|]. split; [exact Hlen|].
  split; [|split; [|split; [|split; [exact Hpar|exact Hother]]]].
  - intros attr value. rewrite Hset. cbn [DOM.assignments el0 In]. tauto.
  - rewrite Hch. destruct (DOM.text_given attributes) as [s|]; [|reflexivity].
    apply DOMFacts.text_children_elements.
  - destruct el as [t asg ch]. cbn [DOM.childNodes] in Hch. subst ch.
    destruct (DOM.text_given attributes) as [s|]; [|reflexivity].
    apply (DOMFacts.text_children_elements s).
Qed.

Lemma createElement_appends_witness :
  let board := {| DOM.tag := str "div"; DOM.assignments := []; DOM.childNodes := [] |} in
  let attributes := [(str "id", DOM.VString (str "x"));
                     (str "textContent", DOM.VString (str "clap"))] in
  let doc := [board] in
  exists doc' el,
    DOM.createElement (Some 0) (str "span") attributes doc = Some (doc', Normal (length doc))
    /\ length doc' = S (length doc)
    /\ doc' !! length doc = Some el
    /\ DOM.tag el = str "span"
    /\ length (DOM.assignments el) = length attributes
    /\ (forall attr value,
          In (DOM.SetAttribute attr value) (DOM.assignments el) <->
          In (attr, value) attributes /\ DOM.special attr = false)
    /\ DOM.elements_of (DOM.childNodes el) = []
    /\ DOM.text_of el = Some (default [] (DOM.text_given attributes))
    /\ doc' !! 0 = Some (DOM.appendChild (length doc) board)
    /\ forall k, k <> 0 -> k < length doc -> doc' !! k = doc !! k.
Proof.
  intros board attributes doc.
  apply (createElement_appends 0 board (str "span") attributes doc); reflexivity.
Defined.

Module BoardFacts.

Lemma card_of_frame (doc doc' : list DOM.Element) (boardEl card : nat) (c : Card) :
  (forall k, k <> boardEl -> k < length doc -> doc' !! k = doc !! k) ->
  card <> boardEl ->
  (forall elc span, doc !! card = Some elc ->
     head (DOM.childNodes elc) = Some (DOM.ChildElement span) -> span <> boardEl) ->
  DOM.card_of doc card = Some c ->
  DOM.card_of doc' card = Some c.
Proof.
  intros Hframe Hcard Hspan. unfold DOM.card_of.
  destruct (doc !! card) as [el|] eqn:Hel; [|discriminate].
  rewrite (Hframe card Hcard (lookup_lt_Some _ _ _ Hel)), Hel.
  destruct (DOM.handler_of el) as [blob|]; [|discriminate].
  destruct (head (DOM.childNodes el)) as [[span|data]|] eqn:Hhead; try discriminate.
  destruct (doc !! span) as [sp|] eqn:Hsp; [|discriminate].
  rewrite (Hframe span (Hspan el span eq_refl Hhead) (lookup_lt_Some _ _ _ Hsp)), Hsp.
  trivial.
Qed.

Lemma elements_of_appendChild (child : nat) (el : DOM.Element) :
  DOM.elements_of (DOM.childNodes (DOM.appendChild child el))
  = DOM.elements_of (DOM.childNodes el) ++ [child].
Proof. unfold DOM.elements_of, DOM.appendChild. cbn. now rewrite omap_app. Qed.

(** The two elements [createSoundboardButton] fills. *)
Lemma card_filled (soundBlob : Blob) :
  DOM.set_attributes
    [(str "class", DOM.VString (str "card")); (str "onclick", DOM.VPlay soundBlob)]
    {| DOM.tag := str "div"; DOM.assignments := []; DOM.childNodes := [] |}
  = Some ({| DOM.tag := str "div";
             DOM.assignments := [DOM.SetAttribute (str "class") (DOM.VString (str "card"));
                                 DOM.Onclick (DOM.VPlay soundBlob)];
             DOM.childNodes := [] |}, Normal tt).
Proof. reflexivity. Qed.

Lemma span_filled (name : jsstring) :
  DOM.set_attributes [(str "textContent", DOM.VString name)]
    {| DOM.tag := str "span"; DOM.assignments := []; DOM.childNodes := [] |}
  = Some ({| DOM.tag := str "span"; DOM.assignments := [DOM.TextContent name];
             DOM.childNodes := DOM.text_children name |}, Normal tt).
Proof. reflexivity. Qed.

End BoardFacts.

(** X20.  On the nodes of the document, [createSoundboardButton] adds one
    card at the end of the board and leaves the cards that are there: read
    off the document, the board afterwards shows the same cards as before,
    followed by one with the name as the text of its [span] and a click
    handler that plays the blob given. *)
Theorem createSoundboardButton_adds_card (doc : list DOM.Element) (boardEl : nat)
    (name : jsstring) (soundBlob : Blob) (shown : list Card) :
  DOM.cards doc boardEl = Some shown ->
  DOM.board_tree doc boardEl ->
  exists doc',
    DOM.createSoundboardButton (Some boardEl) name soundBlob doc = Some (doc', Normal tt)
    /\ DOM.cards doc' boardEl
       = Some (shown ++ [{| card_text := name; card_sound := soundBlob |}])
    /\ DOM.board_tree doc' boardEl.
Proof.
  intros Hcards Htree. unfold DOM.cards in Hcards.
  destruct (doc !! boardEl) as [board|] eqn:Hboard; [|discriminate].
  specialize (Htree board Hboard).
  apply mapM_Some in Hcards.
  pose proof (lookup_lt_Some _ _ _ Hboard) as Hlt.
  set (n := length doc) in *.
  destruct (DOMFacts.createElement_nodes boardEl board _ (str "div") _ doc
              eq_refl (BoardFacts.card_filled soundBlob) Hboard)
    as (Hcall1 & Hlen1 & Hb1 & Hn1 & Hother1).
  cbn zeta in *. fold n in Hcall1, Hlen1, Hb1, Hn1, Hother1.
  match type of Hcall1 with _ = Some (?d, _) => set (doc1 := d) in * end.
  destruct (DOMFacts.createElement_nodes n _ _ (str "span") _ doc1
              eq_refl (BoardFacts.span_filled name) Hn1)
    as (Hcall2 & Hlen2 & Hb2 & Hn2 & Hother2).
  cbn zeta in *. rewrite Hlen1 in Hcall2, Hlen2, Hb2, Hn2, Hother2.
  match type of Hcall2 with _ = Some (?d, _) => set (doc2 := d) in * end.
  assert (Hframe : forall k, k <> boardEl -> k < n -> doc2 !! k = doc !! k).
  { intros k Hk Hkn. rewrite Hother2 by lia. now apply Hother1. }
  assert (Hboard2 : doc2 !! boardEl = Some (DOM.appendChild n board)).
  { rewrite Hother2 by lia. exact Hb1. }
  exists doc2. split; [|split].
  - unfold DOM.createSoundboardButton. rewrite Hcall1, Hcall2. reflexivity.
  - unfold DOM.cards. rewrite Hboard2, BoardFacts.elements_of_appendChild.
    apply mapM_Some. apply Forall2_app.
    + clear Hboard Hb1 Hboard2. revert Htree.
      induction Hcards as [|card c cards cs Hc _ IH]; intros Htree; [constructor|].
      apply Forall_cons in Htree as [[Hne Hspan] Htree].
      constructor; [|now apply IH].
      now apply (BoardFacts.card_of_frame doc doc2 boardEl card c Hframe Hne Hspan).
    + constructor; [|constructor].
      unfold DOM.card_of. rewrite Hb2. cbn. rewrite Hn2.
      now rewrite (proj2 (DOMFacts.text_children_elements name)).
  - intros el Hel. rewrite Hboard2 in Hel. injection Hel as <-.
    rewrite BoardFacts.elements_of_appendChild. apply Forall_app. split.
    + clear Hboard Hb1 Hboard2. revert Htree.
      induction Hcards as [|card c cards cs Hc _ IH]; intros Htree; [constructor|].
      apply Forall_cons in Htree as [[Hne Hspan] Htree].
      constructor; [|now apply IH]. split; [exact Hne|].
      unfold DOM.card_of in Hc.
      destruct (doc !! card) as [elc0|] eqn:Helc0; [|discriminate].
      intros elc span. rewrite (Hframe card Hne (lookup_lt_Some _ _ _ Helc0)).
      rewrite Helc0. now apply Hspan.
    + constructor; [|constructor]. split; [lia|].
      intros elc span. rewrite Hb2. intros [= <-]. cbn. intros [= <-]. lia.
Qed.

Lemma createSoundboardButton_adds_card_witness :
  let board := {| DOM.tag := str "div"; DOM.assignments := []; DOM.childNodes := [] |} in
  let blob := {| blob_type := []; blob_bytes := [x52; x49; x46; x46] |} in
  exists doc',
    DOM.createSoundboardButton (Some 0) (str "clap") blob [board] = Some (doc', Normal tt)
    /\ DOM.cards doc' 0 = Some ([] ++ [{| card_text := str "clap"; card_sound := blob |}])
    /\ DOM.board_tree doc' 0.
Proof.
  intros board blob.
  apply (createSoundboardButton_adds_card [board] 0 (str "clap") blob []).
  - reflexivity.
  - intros el [= <-]. constructor.
Defined.

Module StoreFacts.
Import RunMore.

(** What a step does to the item under [sounds]: nothing, or the
    serialization of the whole catalogue it leaves. *)
Lemma step_sounds_item (ev : Event) (p p' : Page) (o : Outcome) :
  step ev p = Some (p', o) ->
  items (localStorage p') !! str "sounds" = items (localStorage p) !! str "sounds"
  \/ items (localStorage p') !! str "sounds" = Some (JSON_stringify (sounds p')).
Proof.
  intros H. step_cases H; subst p'.
  - destruct (onclick_frame p) as (_ & _ & _ & -> & _). now left.
  - now left.
  - now left.
  - now left.
  - now left.
  - unfold onloadend.
    match goal with |- context [append ?e ?q] =>
      destruct (append e q) as [p' o'] eqn:Happ;
      pose proof (PageFacts.append_sounds e q) as Hs; rewrite Happ in Hs;
      destruct o' as [|err|]
    end; cbn [fst] in *.
    + destruct (hasLocalStorage p) eqn:Hhas.
      * apply PageFacts.append_Returned in Happ as (Hs' & _ & _ & Hitems);
          [|exact Hhas].
        right. rewrite Hitems, Hs'. apply lookup_insert_eq.
      * left. unfold append in Happ.
        cbn [hasLocalStorage set_sounds set_readers] in Happ. rewrite Hhas in Happ.
        now injection Happ as <-.
    + left. unfold append in Happ.
      cbn [hasLocalStorage set_sounds set_readers sounds localStorage] in Happ.
      destruct (hasLocalStorage p); [|discriminate].
      destruct (setItem _ _ _); [discriminate|]. now injection Happ as <- _.
    + exfalso. unfold append in Happ.
      cbn [hasLocalStorage set_sounds set_readers sounds localStorage] in Happ.
      destruct (hasLocalStorage p); [|discriminate].
      destruct (setItem _ _ _); discriminate.
Qed.

End StoreFacts.

(** X21.  The store is never ahead of the memory: after any run of events
    the item under [sounds] is the one the run found, or the serialization
    of the catalogue as it was after one of the run's appends, that is, of a
    part of the present catalogue that starts with all the sounds the run
    found. *)
Theorem store_holds_earlier_catalogue (evs : list Event) (p p' : Page) :
  run evs p = Some p' ->
  items (localStorage p') !! str "sounds" = items (localStorage p) !! str "sounds"
  \/ exists written later,
       sounds p' = sounds p ++ written ++ later
       /\ items (localStorage p') !! str "sounds"
          = Some (JSON_stringify (sounds p ++ written)).
Proof.
  revert p. induction evs as [|ev evs IH]; intros p Hrun; cbn [run] in Hrun.
  - injection Hrun as <-. now left.
  - destruct (step ev p) as [[q o]|] eqn:Hstep; [|discriminate].
    destruct (RunMore.step_grows ev p q o Hstep) as (l & _ & Hq & _).
    destruct (IH q Hrun) as [Hsame | (written & later & Hs & Hitem)].
    + destruct (StoreFacts.step_sounds_item ev p q o Hstep) as [Hkeep|Hwrite].
      * left. congruence.
      * right. destruct (RunMore.run_grows evs q p' Hrun) as (l' & Hl').
        exists l, l'. rewrite Hl', Hq, <- app_assoc. split; [reflexivity|].
        rewrite Hsame, Hwrite, Hq. reflexivity.
    + right. exists (l ++ written), later.
      rewrite Hs, Hitem, Hq, <- !app_assoc. auto.
Qed.

Lemma store_holds_earlier_catalogue_witness :
  let p := fst (script true false false small_storage (str "Record")) in
  let evs := [Click; StreamGranted; Click; RecorderStop 0 (Some (str "a")); LoadEnd 0;
              Click; StreamGranted; Click; RecorderStop 1 (Some (str "b")); LoadEnd 0] in
  let p' := default p (run evs p) in
  items (localStorage p') !! str "sounds" = items (localStorage p) !! str "sounds"
  \/ exists written later,
       sounds p' = sounds p ++ written ++ later
       /\ items (localStorage p') !! str "sounds"
          = Some (JSON_stringify (sounds p ++ written)).
Proof.
  intros p evs p'.
  apply (store_holds_earlier_catalogue evs p p'). vm_compute; reflexivity.
Defined.

Module ReloadFacts.

Lemma render_sounds_same_view l : forall q1 q2,
  board q1 = board q2 ->
  snd (render_sounds l q1) = snd (render_sounds l q2)
  /\ board (fst (render_sounds l q1)) = board (fst (render_sounds l q2)).
Proof.
  induction l as [|sound l IH]; intros q1 q2 Hb; cbn [render_sounds].
  - auto.
  - destruct (base64toBlob (data sound)) as [blob|e]; [|auto].
    apply IH. cbn. now rewrite Hb.
Qed.

(** [load] looks at the store through the access and the item under
    [sounds] only. *)
Lemma load_same_view (q1 q2 : Page) :
  hasLocalStorage q1 = hasLocalStorage q2 ->
  accessible (localStorage q1) = accessible (localStorage q2) ->
  items (localStorage q1) !! str "sounds" = items (localStorage q2) !! str "sounds" ->
  sounds q1 = sounds q2 -> board q1 = board q2 ->
  snd (load q1) = snd (load q2)
  /\ sounds (fst (load q1)) = sounds (fst (load q2))
  /\ board (fst (load q1)) = board (fst (load q2)).
Proof.
  intros Hhas Hacc Hitem Hs Hb. unfold load, getItem.
  rewrite Hhas, Hacc, Hitem.
  destruct (hasLocalStorage q2); [|auto].
  destruct (accessible (localStorage q2)); [|auto].
  destruct (JSON.parse _) as [v|e]; [|auto].
  assert (Hrender : forall ss,
    snd (render_sounds ss (set_sounds ss q1)) = snd (render_sounds ss (set_sounds ss q2))
    /\ sounds (fst (render_sounds ss (set_sounds ss q1)))
       = sounds (fst (render_sounds ss (set_sounds ss q2)))
    /\ board (fst (render_sounds ss (set_sounds ss q1)))
       = board (fst (render_sounds ss (set_sounds ss q2)))).
  { intros ss.
    destruct (render_sounds_same_view ss (set_sounds ss q1) (set_sounds ss q2) Hb)
      as [Ho Hbb].
    rewrite !PageFacts.render_sounds_sounds. auto. }
  destruct v as [| [|] | | [|c s] | l | ]; auto; try apply Hrender.
  destruct (as_sounds l) as [ss|]; [apply Hrender|auto].
Qed.

Lemma probe_again (st : Storage) :
  let st1 := snd (checkForLocalStorage st) in
  fst (checkForLocalStorage st1) = fst (checkForLocalStorage st)
  /\ accessible (snd (checkForLocalStorage st1)) = accessible st1
  /\ items (snd (checkForLocalStorage st1)) !! str "sounds" = items st1 !! str "sounds".
Proof.
  cbn zeta. unfold checkForLocalStorage, setItem, removeItem.
  destruct (accessible st) eqn:Hacc; cbn [fst snd accessible]; [|rewrite Hacc; auto].
  destruct (storage_size (<[str "test":=str "test"]> (items st)) <=? quota st)%N eqn:Hfit;
    cbn [fst snd accessible quota items].
  - rewrite delete_insert_eq, insert_delete_eq, Hfit. cbn [fst snd accessible items].
    rewrite delete_insert_eq. auto.
  - rewrite Hacc, Hfit. cbn. auto.
Qed.

End ReloadFacts.

(** X22.  Opening the page does not change what the next opening shows:
    started again on the store the script left, the script ends in the same
    way with the same catalogue and the same board. *)
Theorem script_again (mediaDevices bare_empty strict : bool) (storage : Storage)
    (button_text : jsstring) :
  let first := script mediaDevices bare_empty strict storage button_text in
  let second := script mediaDevices bare_empty strict (localStorage (fst first)) button_text in
  snd first <> OutOfModel ->
  snd second = snd first
  /\ sounds (fst second) = sounds (fst first)
  /\ board (fst second) = board (fst first).
Proof.
  cbn zeta. intros _.
  assert (Hstore : localStorage (fst (script mediaDevices bare_empty strict storage
                                        button_text))
                   = snd (checkForLocalStorage storage)).
  { unfold script. destruct (checkForLocalStorage storage) as [has st1].
    match goal with |- context [initUI ?q] =>
      destruct (PageMore.initUI_frame q) as (-> & _) end.
    reflexivity. }
  rewrite Hstore.
  destruct (ReloadFacts.probe_again storage) as (Hans & Hacc & Hitem).
  cbn zeta in *. unfold script.
  destruct (checkForLocalStorage storage) as [has st1]. cbn [fst snd] in *.
  destruct (checkForLocalStorage st1) as [has2 st2]. cbn [fst snd] in *. subst has2.
  unfold initUI.
  match goal with |- context [load ?qa] =>
    match goal with |- context [snd (match load ?qb with _ => _ end) = snd (match load qa with _ => _ end)] =>
      destruct (ReloadFacts.load_same_view qb qa) as (Ho & Hs & Hb);
        [reflexivity|exact Hacc|exact Hitem|reflexivity|reflexivity|];
      destruct (load qa) as [pa oa]; destruct (load qb) as [pb ob]
    end
  end.
  cbn [fst snd] in *. subst ob.
  destruct oa; cbn [fst snd sounds board set_recordBtn_onclick]; auto.
Qed.

Lemma script_again_witness :
  let storage := {| accessible := true; quota := 5000;
                    items := {[ str "sounds" := JSON_stringify [clap; noise];
                                str "test" := str "mine" ]} |} in
  let first := script true false false storage (str "Record") in
  let second := script true false false (localStorage (fst first)) (str "Record") in
  snd first <> OutOfModel
  /\ snd second = snd first
  /\ sounds (fst second) = sounds (fst first)
  /\ board (fst second) = board (fst first).
Proof.
  intros storage first second.
  split; [vm_compute; discriminate|].
  apply (script_again true false false storage (str "Record")).
  vm_compute; discriminate.
Defined.
